(** * The chunk-streaming world grid of [AdvancedWorldSystem.ts]

    A shallow embedding of the world system's terrain generator
    ([getHeight], [getBiome], [generateChunk], [applyHeightMap],
    [applyBiomeMaterials]) and of its streaming loop ([updateChunkLoading],
    [loadChunk], [unloadDistantChunks], [updatePlayerPosition]).

    Numbers.  A JavaScript [number] is modelled as a real number ([R]);
    numbers that the code only ever uses as integers (chunk indices, the
    render distance, the subdivision count) are modelled as [Z].  Rounding,
    [NaN] and the infinities of IEEE doubles are outside the embedding, so
    the statements about a whole tick assume a non-zero [chunkSize]
    (a zero one makes [position / chunkSize] non-finite).

    Containers.  A JavaScript [Set] and [Map] iterate in insertion order;
    they are modelled as lists kept in that order ([JSSet], [JSMap]). *)

From Stdlib Require Import ZArith Reals Lra Lia.
From Stdlib Require Import Ascii String Decimal DecimalString DecimalZ.
From Stdlib Require Import Zfloor.
From stdpp Require Import base tactics option list list_numbers strings.

#[local] Open Scope string_scope.
#[local] Open Scope Z_scope.
#[local] Arguments String.append !_ _ / : simpl nomatch.

(** ** Numbers as text *)

Module JSString.

(** [`${n}`] for an integer-valued number [n]. *)
Definition ofNumber (n : Z) : string :=
  NilEmpty.string_of_int (Z.to_int n).

(** [Number(s)] on the integer literals [ofNumber] writes (and, as in
    JavaScript, on the empty string, which is [0]).  [None] stands for
    [NaN]. *)
Definition Number (s : string) : option Z :=
  option_map Z.of_int (NilEmpty.int_of_string s).

(** [s.split(',')]. *)
Fixpoint split_go (acc : string) (s : string) : list string :=
  match s with
  | EmptyString => [acc]
  | String c s' =>
      if Ascii.eqb c "," then acc :: split_go EmptyString s'
      else split_go (acc ++ String c EmptyString) s'
  end.

Definition split (s : string) : list string := split_go EmptyString s.

(** The characters of a string. *)
Fixpoint chars (s : string) : list ascii :=
  match s with
  | EmptyString => []
  | String c s' => c :: chars s'
  end.

End JSString.

(** ** Chunk keys *)

(** [`${chunkX},${chunkZ}`] *)
Definition chunkKey (chunkX chunkZ : Z) : string :=
  JSString.ofNumber chunkX ++ "," ++ JSString.ofNumber chunkZ.

(** [const [x, z] = chunkKey.split(',').map(Number)]: the first two
    components, each [None] when it is [NaN] or missing. *)
Definition parseKey (key : string) : option Z * option Z :=
  match List.map JSString.Number (JSString.split key) with
  | x :: z :: _ => (x, z)
  | [x] => (x, None)
  | [] => (None, None)
  end.

(** ** Insertion-ordered containers *)

(** A JavaScript [Set<string>]: the members in insertion order. *)
Module JSSet.

Definition empty : list string := [].

Definition has (k : string) (s : list string) : bool := bool_decide (k ∈ s).

Definition add (k : string) (s : list string) : list string :=
  if has k s then s else s ++ [k].

Definition delete (k : string) (s : list string) : list string :=
  filter (λ k', k' ≠ k) s.

End JSSet.

(** A JavaScript [Map<string, V>]: the entries in insertion order. *)
Module JSMap.

Definition empty {V} : list (string * V) := [].

Definition keys {V} (m : list (string * V)) : list string := m.*1.

Fixpoint get {V} (k : string) (m : list (string * V)) : option V :=
  match m with
  | [] => None
  | (k', v) :: m' => if decide (k' = k) then Some v else get k m'
  end.

(** [m.set(k, v)] keeps the position of an existing key. *)
Fixpoint set {V} (k : string) (v : V) (m : list (string * V)) : list (string * V) :=
  match m with
  | [] => [(k, v)]
  | (k', v') :: m' =>
      if decide (k' = k) then (k, v) :: m' else (k', v') :: set k v m'
  end.

Definition delete {V} (k : string) (m : list (string * V)) : list (string * V) :=
  filter (λ e, e.1 ≠ k) m.

End JSMap.

(** ** The engine objects the world system touches *)

Record Vector3 := mkVector3 { v_x : R; v_y : R; v_z : R }.

Definition Vector3_Zero : Vector3 := mkVector3 0 0 0.

Record Color3 := mkColor3 { c_r : R; c_g : R; c_b : R }.

Record PBRMaterial := mkPBRMaterial {
  mat_name : string;
  albedoColor : option Color3;
  roughness : option R
}.

Record PhysicsImpostor := mkPhysicsImpostor {
  imp_mass : R;
  imp_restitution : R
}.

Record Mesh := mkMesh {
  uniqueId : nat;
  mesh_name : string;
  mesh_position : Vector3;
  (** the ['position'] vertex buffer: x, y, z of each vertex in turn *)
  verticesData : option (list R);
  material : option PBRMaterial;
  physicsImpostor : option PhysicsImpostor
}.

(** The scene, as far as chunk code allocates into it: the ids of the
    meshes it holds, and the names of the procedural textures and of the
    materials created in it. *)
Record Scene := mkScene {
  nextUniqueId : nat;
  meshes : list nat;
  proceduralTextures : list string;
  materials : list string
}.

(** Code that allocates into the scene. *)
Definition SceneM (A : Type) : Type := Scene → A * Scene.

Definition ret {A} (a : A) : SceneM A := λ sc, (a, sc).

Definition bind {A B} (m : SceneM A) (k : A → SceneM B) : SceneM B :=
  λ sc, let (a, sc') := m sc in k a sc'.

Declare Scope scene_scope.
Delimit Scope scene_scope with scene.
Notation "x <- m ;; k" := (bind m (λ x, k))
  (at level 100, m at next level, right associativity) : scene_scope.
Notation "m ;;; k" := (bind m (λ _, k))
  (at level 100, right associativity) : scene_scope.

(** [new NoiseProceduralTexture(name, size, scene)] *)
Definition newNoiseProceduralTexture (name : string) : SceneM unit :=
  λ sc, (tt, mkScene (nextUniqueId sc) (meshes sc)
                     (proceduralTextures sc ++ [name]) (materials sc)).

(** [new PBRMaterial(name, scene)] *)
Definition newPBRMaterial (name : string) : SceneM PBRMaterial :=
  λ sc, (mkPBRMaterial name None None,
         mkScene (nextUniqueId sc) (meshes sc)
                 (proceduralTextures sc) (materials sc ++ [name])).

(** [mesh.dispose()] *)
Definition dispose (m : Mesh) : SceneM unit :=
  λ sc, (tt, mkScene (nextUniqueId sc)
                     (filter (λ i, i ≠ uniqueId m) (meshes sc))
                     (proceduralTextures sc) (materials sc)).

Inductive Biome := village | forest | mountains | desert.

Definition Biome_toString (b : Biome) : string :=
  match b with
  | village => "village"
  | forest => "forest"
  | mountains => "mountains"
  | desert => "desert"
  end.

Record Chunk := mkChunk {
  mesh : Mesh;
  biome : Biome;
  position : Vector3
}.

Record WorldConfig := mkWorldConfig {
  chunkSize : R;
  renderDistance : Z;
  maxChunks : Z;
  enableDynamicLoading : bool;
  enableLOD : bool
}.

(** The configurations the embedding covers: with a zero [chunkSize] the
    player's chunk index is not a finite number. *)
Definition validConfig (cfg : WorldConfig) : Prop := chunkSize cfg ≠ 0%R.

(** Console output of the streaming loop. *)
Inductive LogEntry :=
| LoadedChunk (chunkKey : string)
| UnloadedChunk (chunkKey : string).

(** ** Real-number helpers *)

Section Numbers.
#[local] Open Scope R_scope.

(** [Math.trunc] *)
Definition Rtrunc (a : R) : Z :=
  if Rle_dec 0 a then Zfloor a else Zceil a.

(** The [%] operator: the remainder has the sign of the dividend. *)
Definition Rrem (a b : R) : R := a - b * IZR (Rtrunc (a / b)).

End Numbers.

(** ** The world generator and the streaming loop *)

Record AdvancedWorldSystem := mkWorld {
  scene : Scene;
  config : WorldConfig;
  chunks : list (string * Chunk);
  playerPosition : Vector3;
  loadedChunks : list string;
  (** the named environments, each with the ids of its meshes *)
  environments : list (string * list nat);
  console : list LogEntry
}.

(** [for (let x = lo; x <= hi; x++) body(x)] over a threaded state. *)
Definition forRange {S : Type} (lo hi : Z) (body : Z → S → S) (s : S) : S :=
  foldl (λ s x, body x s) s (seqZ lo (hi - lo + 1)).

Section WorldSystem.

(** The vertex buffer that the engine's [MeshBuilder.CreateGround] builds
    for a ground of a given width, height and subdivision count.  The
    engine is not part of the repository, so the layout is a parameter. *)
Variable groundPositions : R → R → Z → list R.

#[local] Open Scope scene_scope.

(** [MeshBuilder.CreateGround(name, {width, height, subdivisions}, scene)] *)
Definition CreateGround (name : string) (width height : R)
    (subdivisions : Z) : SceneM Mesh :=
  λ sc,
    (mkMesh (nextUniqueId sc) name Vector3_Zero
            (Some (groundPositions width height subdivisions)) None None,
     mkScene (S (nextUniqueId sc)) (meshes sc ++ [nextUniqueId sc])
             (proceduralTextures sc) (materials sc)).

(** [worldGenerator.getHeight]; the noise texture it allocates (and whose
    octaves and persistence it sets) is never sampled. *)
Definition getHeight (x z : R) : SceneM R :=
  newNoiseProceduralTexture "noise" ;;;
  let nx := Rrem (x / 100) 1 in
  let nz := Rrem (z / 100) 1 in
  let height := 0%R in
  let height := (height + sin (nx * 10) * cos (nz * 10) * 20)%R in
  let height := (height + sin (nx * 20) * cos (nz * 20) * 10)%R in
  let height := (height + sin (nx * 40) * cos (nz * 40) * 5)%R in
  ret height.

(** [worldGenerator.getBiome] *)
Definition getBiome (x z : R) : Biome :=
  let distance := sqrt (x * x + z * z) in
  if Rlt_dec distance 100 then village
  else if Rlt_dec distance 300 then forest
  else if Rlt_dec distance 500 then mountains
  else desert.

(** The loop of [applyHeightMap]: [i] advances by three; [vertices[i]] and
    [vertices[i + 2]] are read and [vertices[i + 1]] is overwritten.
    Position buffers hold whole triples. *)
Fixpoint applyHeightMap_loop (chunkSize : R) (chunkX chunkZ : Z)
    (vertices : list R) : SceneM (list R) :=
  match vertices with
  | vi :: vi1 :: vi2 :: rest =>
      let x := (vi + IZR chunkX * chunkSize)%R in
      let z := (vi2 + IZR chunkZ * chunkSize)%R in
      height <- getHeight x z ;;
      rest' <- applyHeightMap_loop chunkSize chunkX chunkZ rest ;;
      ret (vi :: height :: vi2 :: rest')
  | _ => ret vertices
  end.

Definition applyHeightMap (cfg : WorldConfig) (ground : Mesh)
    (chunkX chunkZ : Z) : SceneM Mesh :=
  let chunkSize := chunkSize cfg in
  match verticesData ground with
  | Some vertices =>
      vertices' <- applyHeightMap_loop chunkSize chunkX chunkZ vertices ;;
      ret (mkMesh (uniqueId ground) (mesh_name ground)
                  (mesh_position ground) (Some vertices')
                  (material ground) (physicsImpostor ground))
  | None => ret ground
  end.

Definition applyBiomeMaterials (ground : Mesh) (biome : Biome)
    : SceneM Mesh :=
  material <- newPBRMaterial ("biome_" ++ Biome_toString biome ++ "_mat") ;;
  let material :=
    match biome with
    | village =>
        mkPBRMaterial (mat_name material)
          (Some (mkColor3 0.6 0.5 0.3)) (Some 0.8%R)
    | forest =>
        mkPBRMaterial (mat_name material)
          (Some (mkColor3 0.2 0.4 0.1)) (Some 0.9%R)
    | mountains =>
        mkPBRMaterial (mat_name material)
          (Some (mkColor3 0.5 0.5 0.5)) (Some 0.7%R)
    | desert =>
        mkPBRMaterial (mat_name material)
          (Some (mkColor3 0.8 0.7 0.5)) (Some 0.6%R)
    end in
  ret (mkMesh (uniqueId ground) (mesh_name ground) (mesh_position ground)
              (verticesData ground) (Some material)
              (physicsImpostor ground)).

(** [worldGenerator.generateChunk] *)
Definition generateChunk (cfg : WorldConfig) (chunkX chunkZ : Z)
    : SceneM Chunk :=
  let chunkKey := chunkKey chunkX chunkZ in
  let chunkSize := chunkSize cfg in
  ground <- CreateGround ("chunk_" ++ chunkKey) chunkSize chunkSize 50 ;;
  let ground :=
    mkMesh (uniqueId ground) (mesh_name ground)
           (mkVector3 (IZR chunkX * chunkSize) 0 (IZR chunkZ * chunkSize))
           (verticesData ground) (material ground)
           (physicsImpostor ground) in
  ground <- applyHeightMap cfg ground chunkX chunkZ ;;
  let biome :=
    getBiome (IZR chunkX * chunkSize) (IZR chunkZ * chunkSize) in
  ground <- applyBiomeMaterials ground biome ;;
  let ground :=
    mkMesh (uniqueId ground) (mesh_name ground) (mesh_position ground)
           (verticesData ground) (material ground)
           (Some (mkPhysicsImpostor 0 0.9)) in
  ret (mkChunk ground biome
         (mkVector3 (IZR chunkX * chunkSize) 0 (IZR chunkZ * chunkSize))).

Definition loadChunk (chunkX chunkZ : Z) (w : AdvancedWorldSystem)
    : AdvancedWorldSystem :=
  let chunkKey := chunkKey chunkX chunkZ in
  if JSSet.has chunkKey (loadedChunks w) then w
  else
    let (chunk, sc) := generateChunk (config w) chunkX chunkZ (scene w) in
    mkWorld sc (config w)
            (JSMap.set chunkKey chunk (chunks w))
            (playerPosition w)
            (JSSet.add chunkKey (loadedChunks w))
            (environments w)
            (console w ++ [LoadedChunk chunkKey]).

(** [Math.max(Math.abs(x - playerChunkX), Math.abs(z - playerChunkZ))];
    [None] when a component of the key is [NaN]. *)
Definition keyDistance (playerChunkX playerChunkZ : Z) (chunkKey : string)
    : option Z :=
  match parseKey chunkKey with
  | (Some x, Some z) =>
      Some (Z.max (Z.abs (x - playerChunkX)) (Z.abs (z - playerChunkZ)))
  | _ => None
  end.

(** [distance > this.config.renderDistance + 1], false on [NaN]. *)
Definition isDistant (cfg : WorldConfig) (playerChunkX playerChunkZ : Z)
    (chunkKey : string) : bool :=
  match keyDistance playerChunkX playerChunkZ chunkKey with
  | Some distance => bool_decide (distance > renderDistance cfg + 1)
  | None => false
  end.

(** The body of [chunksToUnload.forEach]. *)
Definition unloadChunk (w : AdvancedWorldSystem) (chunkKey : string)
    : AdvancedWorldSystem :=
  let chunk := JSMap.get chunkKey (chunks w) in
  let sc :=
    match chunk with
    | Some chunk => snd (dispose (mesh chunk) (scene w))
    | None => scene w
    end in
  mkWorld sc (config w)
          (JSMap.delete chunkKey (chunks w))
          (playerPosition w)
          (JSSet.delete chunkKey (loadedChunks w))
          (environments w)
          (console w ++ [UnloadedChunk chunkKey]).

Definition chunksToUnload (playerChunkX playerChunkZ : Z)
    (w : AdvancedWorldSystem) : list string :=
  List.filter (isDistant (config w) playerChunkX playerChunkZ)
              (loadedChunks w).

Definition unloadDistantChunks (playerChunkX playerChunkZ : Z)
    (w : AdvancedWorldSystem) : AdvancedWorldSystem :=
  foldl unloadChunk w (chunksToUnload playerChunkX playerChunkZ w).

(** [Math.floor(this.playerPosition.x / this.config.chunkSize)] and the
    same for [z]. *)
Definition playerChunk (w : AdvancedWorldSystem) : Z * Z :=
  (Zfloor (v_x (playerPosition w) / chunkSize (config w)),
   Zfloor (v_z (playerPosition w) / chunkSize (config w))).

(** The two nested loading loops of [updateChunkLoading]. *)
Definition loadChunksInRange (chunkX chunkZ : Z) (w : AdvancedWorldSystem)
    : AdvancedWorldSystem :=
  let rd := renderDistance (config w) in
  forRange (chunkX - rd) (chunkX + rd) (λ x w,
    forRange (chunkZ - rd) (chunkZ + rd) (λ z w,
      let chunkKey := chunkKey x z in
      if negb (JSSet.has chunkKey (loadedChunks w)) then loadChunk x z w
      else w) w) w.

Definition updateChunkLoading (w : AdvancedWorldSystem)
    : AdvancedWorldSystem :=
  let (chunkX, chunkZ) := playerChunk w in
  let w := loadChunksInRange chunkX chunkZ w in
  unloadDistantChunks chunkX chunkZ w.

Definition updatePlayerPosition (position : Vector3)
    (w : AdvancedWorldSystem) : AdvancedWorldSystem :=
  mkWorld (scene w) (config w) (chunks w) position (loadedChunks w)
          (environments w) (console w).

(** The system once constructed: no chunk loaded, the player at the
    origin; the scene holds what the environments put there. *)
Definition newWorld (sc : Scene) (cfg : WorldConfig)
    (envs : list (string * list nat)) : AdvancedWorldSystem :=
  mkWorld sc cfg JSMap.empty Vector3_Zero JSSet.empty envs [].

(** The states the public interface can reach: the render loop runs
    [updateChunkLoading] before each frame, the game calls
    [updatePlayerPosition]. *)
Inductive reachable : AdvancedWorldSystem → Prop :=
| reachable_new sc cfg envs :
    validConfig cfg → reachable (newWorld sc cfg envs)
| reachable_tick w : reachable w → reachable (updateChunkLoading w)
| reachable_move w position :
    reachable w → reachable (updatePlayerPosition position w).

End WorldSystem.

(** ** Vocabulary of the statements *)

(** Chebyshev distance between the cell [(x, z)] and the cell [(px, pz)]. *)
Definition chebyshev (x z px pz : Z) : Z :=
  Z.max (Z.abs (x - px)) (Z.abs (z - pz)).

(** The cell [(x, z)] is resident: its key is in the loaded set. *)
Definition resident (w : AdvancedWorldSystem) (x z : Z) : Prop :=
  chunkKey x z ∈ loadedChunks w.

(** The cells the loading loops visit, in the order they visit them. *)
Definition scan (chunkX chunkZ rd : Z) : list (Z * Z) :=
  x ← seqZ (chunkX - rd) (chunkX + rd - (chunkX - rd) + 1);
  z ← seqZ (chunkZ - rd) (chunkZ + rd - (chunkZ - rd) + 1);
  [(x, z)].

(** The two residency structures hold the same keys in the same order. *)
Definition consistent (w : AdvancedWorldSystem) : Prop :=
  JSMap.keys (chunks w) = loadedChunks w.

(** A configuration that differs from that of [w] at most in [maxChunks],
    [enableDynamicLoading] and [enableLOD]. *)
Definition withFlags (maxChunks : Z) (enableDynamicLoading enableLOD : bool)
    (w : AdvancedWorldSystem) : AdvancedWorldSystem :=
  mkWorld (scene w)
    (mkWorldConfig (chunkSize (config w)) (renderDistance (config w))
                   maxChunks enableDynamicLoading enableLOD)
    (chunks w) (playerPosition w) (loadedChunks w) (environments w)
    (console w).

(** The height formula, as the specification words it, with its [mod]
    read as the [%] operator of the code. *)
Definition heightSpec (x z : R) : R :=
  let nx := Rrem (x / 100) 1 in
  let nz := Rrem (z / 100) 1 in
  (sin (nx * 10) * cos (nz * 10) * 20
   + sin (nx * 20) * cos (nz * 20) * 10
   + sin (nx * 40) * cos (nz * 40) * 5)%R.



(** Every loaded key was written by [chunkKey]. *)
Definition canonicalKeys (w : AdvancedWorldSystem) : Prop :=
  ∀ k, k ∈ loadedChunks w → ∃ x z, k = chunkKey x z.

(** No two entries of the chunk map are for the same pair of indices. *)
Definition uniqueCells (w : AdvancedWorldSystem) : Prop :=
  ∀ i j e1 e2,
    chunks w !! i = Some e1 → chunks w !! j = Some e2 →
    parseKey e1.1 = parseKey e2.1 → i = j.

(** The ground meshes of the stored chunks are in the scene, each chunk
    with a mesh of its own. *)
Definition meshesOwned (w : AdvancedWorldSystem) : Prop :=
  (∀ e, e ∈ chunks w →
     uniqueId (mesh e.2) ∈ meshes (scene w)
     ∧ (uniqueId (mesh e.2) < nextUniqueId (scene w))%nat)
  ∧ NoDup ((λ e, uniqueId (mesh e.2)) <$> chunks w).

(** Every stored chunk is what [generateChunk] made for the indices of its
    key, in some state of the scene. *)
Definition chunksGenerated (groundPositions : R → R → Z → list R)
    (w : AdvancedWorldSystem) : Prop :=
  ∀ e, e ∈ chunks w →
    ∃ x z sc, e.1 = chunkKey x z
              ∧ e.2 = (generateChunk groundPositions (config w) x z sc).1.

(** What every reachable state satisfies. *)
Record invariant (w : AdvancedWorldSystem) : Prop := mkInvariant {
  inv_valid : validConfig (config w);
  inv_consistent : consistent w;
  inv_NoDup : NoDup (loadedChunks w);
  inv_canonical : canonicalKeys w;
  inv_meshes : meshesOwned w
}.

(** An engine layout to run examples with: the four corners of the
    ground. *)
Definition cornersOnly (width height : R) (subdivisions : Z) : list R :=
  [- width / 2; 0; height / 2;
   width / 2; 0; height / 2;
   - width / 2; 0; - height / 2;
   width / 2; 0; - height / 2]%R.

Definition emptyScene : Scene := mkScene 0 [] [] [].

(** The configuration of the initial-load scenario. *)
Definition scenarioConfig (maxChunks : Z)
    (enableDynamicLoading enableLOD : bool) : WorldConfig :=
  mkWorldConfig 100 1 maxChunks enableDynamicLoading enableLOD.

(** The nine cells around the origin, in loading order. *)
Definition nineCells : list (Z * Z) :=
  [(-1, -1); (-1, 0); (-1, 1); (0, -1); (0, 0); (0, 1);
   (1, -1); (1, 0); (1, 1)].

(** The walk of the hysteresis scenario: a first tick at the origin, a move
    of one chunk along x, a second tick. *)
Definition walkStart : AdvancedWorldSystem :=
  newWorld emptyScene (scenarioConfig 25 true true) [].

Definition walkLoaded : AdvancedWorldSystem :=
  updateChunkLoading cornersOnly walkStart.

Definition walkMoved : AdvancedWorldSystem :=
  updatePlayerPosition (mkVector3 100 0 0) walkLoaded.

Definition walkEnd : AdvancedWorldSystem :=
  updateChunkLoading cornersOnly walkMoved.


(** ** The rest of the public interface, and its caller *)

(** [getChunkAt]: [undefined] is [None]. *)
Definition getChunkAt (x z : R) (w : AdvancedWorldSystem) : option Chunk :=
  let chunkX := Zfloor (x / chunkSize (config w)) in
  let chunkZ := Zfloor (z / chunkSize (config w)) in
  let chunkKey := chunkKey chunkX chunkZ in
  JSMap.get chunkKey (chunks w).

(** [getEnvironment]: [undefined] is [None]. *)
Definition getEnvironment (name : string) (w : AdvancedWorldSystem)
    : option (list nat) :=
  JSMap.get name (environments w).

Definition getAllEnvironments (w : AdvancedWorldSystem)
    : list (string * list nat) :=
  environments w.

(** The [worldConfig] the game constructs the system with. *)
Definition gameWorldConfig : WorldConfig := mkWorldConfig 100 3 25 true true.

(** [w'] is [w] after some frames: the render loop runs
    [updateChunkLoading], the game loop calls [updatePlayerPosition]. *)
Inductive reaches (groundPositions : R → R → Z → list R)
    (w : AdvancedWorldSystem) : AdvancedWorldSystem → Prop :=
| reaches_refl : reaches groundPositions w w
| reaches_tick w' :
    reaches groundPositions w w' →
    reaches groundPositions w (updateChunkLoading groundPositions w')
| reaches_move w' position :
    reaches groundPositions w w' →
    reaches groundPositions w (updatePlayerPosition position w').

(** The ids of the ground meshes of the stored chunks, in map order. *)
Definition chunkMeshIds (w : AdvancedWorldSystem) : list nat :=
  (λ e, uniqueId (mesh e.2)) <$> chunks w.

(** The cell a world position falls in. *)
Definition cellOf (cfg : WorldConfig) (position : Vector3) : Z * Z :=
  (Zfloor (v_x position / chunkSize cfg),
   Zfloor (v_z position / chunkSize cfg)).

(** The heights of a vertex buffer: every third entry from the second. *)
Fixpoint heightsOf (vertices : list R) : list R :=
  match vertices with
  | _ :: y :: _ :: rest => y :: heightsOf rest
  | _ => []
  end.

(** The scene [sc'] holds the materials and the procedural textures of
    [sc] and possibly more, and has handed out at least as many ids. *)
Definition sceneGrows (sc sc' : Scene) : Prop :=
  materials sc `prefix_of` materials sc'
  ∧ proceduralTextures sc `prefix_of` proceduralTextures sc'
  ∧ (nextUniqueId sc ≤ nextUniqueId sc')%nat.

(** The ids of the meshes of a scene were handed out by the scene. *)
Definition wellFormedScene (sc : Scene) : Prop :=
  ∀ i, i ∈ meshes sc → (i < nextUniqueId sc)%nat.

(** The meshes of the scene of [w] are those of the scene [sc0] the system
    was constructed in, followed by the ground meshes of the stored
    chunks. *)
Definition accounted (sc0 : Scene) (w : AdvancedWorldSystem) : Prop :=
  meshes (scene w) = (meshes sc0 ++ chunkMeshIds w)%list
  ∧ (nextUniqueId sc0 ≤ nextUniqueId (scene w))%nat
  ∧ (∀ i, i ∈ chunkMeshIds w →
          (nextUniqueId sc0 ≤ i < nextUniqueId (scene w))%nat)
  ∧ NoDup (chunkMeshIds w)
  ∧ NoDup (JSMap.keys (chunks w))
  ∧ consistent w.

(** ** The static environments *)

(** The options of [MeshBuilder.CreateBox], [CreateCylinder] and
    [CreateSphere] that the environments use. *)
Inductive Shape :=
| Box (width height depth : R)
| Cylinder (diameter height : R) (tessellation : option Z)
| Sphere (diameter : R) (segments : Z).

(** A [PBRMaterial] with the three properties the environments set. *)
Record SceneryMaterial := mkSceneryMaterial {
  sm_name : string;
  sm_metallic : R;
  sm_roughness : R;
  sm_albedoColor : Color3
}.

Record SceneryMesh := mkSceneryMesh {
  s_uniqueId : nat;
  s_name : string;
  s_shape : Shape;
  s_position : Vector3;
  s_material : SceneryMaterial
}.


Record TempleEnvironment := mkTemple {
  mainTemple : option SceneryMesh;
  pillars : list SceneryMesh;
  statues : list SceneryMesh;
  temple_decorations : list SceneryMesh
}.

Record VillageEnvironment := mkVillage {
  buildings : list SceneryMesh;
  npcs : list SceneryMesh;
  props : list SceneryMesh
}.

Section Environments.

(** [Math.random()]: the value of the n-th call. *)
Variable random : nat → R.

(** Code that allocates into the scene and draws random numbers: the state
    is the scene and the number of calls of [Math.random()] so far. *)
Definition EnvM (A : Type) : Type := Scene * nat → A * (Scene * nat).

Definition eret {A} (a : A) : EnvM A := λ st, (a, st).

Definition ebind {A B} (m : EnvM A) (k : A → EnvM B) : EnvM B :=
  λ st, let (a, st') := m st in k a st'.

#[local] Notation "x <~ m ;; k" := (ebind m (λ x, k))
  (at level 100, m at next level, right associativity).

Definition Math_random : EnvM R :=
  λ st, (random st.2, (st.1, S st.2)).

(** [MeshBuilder.Create...(name, options, scene)]: the id of the mesh. *)
Definition createShape : EnvM nat :=
  λ st,
    (nextUniqueId st.1,
     (mkScene (S (nextUniqueId st.1)) (meshes st.1 ++ [nextUniqueId st.1])
              (proceduralTextures st.1) (materials st.1),
      st.2)).

(** [new PBRMaterial(name, scene)] *)
Definition newSceneryMaterial (name : string) : EnvM unit :=
  λ st,
    (tt,
     (mkScene (nextUniqueId st.1) (meshes st.1) (proceduralTextures st.1)
              (materials st.1 ++ [name]),
      st.2)).

(** [for (let i = 0; i < n; i++) list.push(f(i))] *)
Fixpoint pushEach {A} (f : Z → EnvM A) (indices : list Z) : EnvM (list A) :=
  match indices with
  | [] => eret []
  | i :: rest => a <~ f i ;; l <~ pushEach f rest ;; eret (a :: l)
  end.




Definition createMainTemple : EnvM SceneryMesh :=
  base <~ createShape ;;
  u <~ newSceneryMaterial "temple_base_mat" ;;
  dome <~ createShape ;;
  u <~ newSceneryMaterial "temple_dome_mat" ;;
  eret (mkSceneryMesh base "temple_base" (Box 40 4 40)
          (mkVector3 100 2 100)
          (mkSceneryMaterial "temple_base_mat" 0 0.6 (mkColor3 0.9 0.9 0.7))).

Definition createTemplePillar (index : Z) : EnvM SceneryMesh :=
  pillar <~ createShape ;;
  let angle := (IZR index / 12 * PI * 2)%R in
  let distance := 25%R in
  let x := (100 + cos angle * distance)%R in
  let z := (100 + sin angle * distance)%R in
  let name := "pillar_mat_" ++ JSString.ofNumber index in
  u <~ newSceneryMaterial name ;;
  eret (mkSceneryMesh pillar ("temple_pillar_" ++ JSString.ofNumber index)
          (Cylinder 1.5 15 (Some 20))
          (mkVector3 x 9.5 z)
          (mkSceneryMaterial name 0 0.5 (mkColor3 0.8 0.8 0.6))).

Definition createTempleStatue (index : Z) : EnvM SceneryMesh :=
  statue <~ createShape ;;
  let angle := (IZR index / 6 * PI * 2)%R in
  let distance := 15%R in
  let x := (100 + cos angle * distance)%R in
  let z := (100 + sin angle * distance)%R in
  let name := "statue_mat_" ++ JSString.ofNumber index in
  u <~ newSceneryMaterial name ;;
  eret (mkSceneryMesh statue ("temple_statue_" ++ JSString.ofNumber index)
          (Cylinder 2 8 (Some 16))
          (mkVector3 x 6 z)
          (mkSceneryMaterial name 0.8 0.2 (mkColor3 0.9 0.9 0.9))).

(** The object that [createTempleEnvironment] stores under ['temple']. *)
Definition createTempleEnvironment : EnvM TempleEnvironment :=
  main <~ createMainTemple ;;
  pillars <~ pushEach createTemplePillar (seqZ 0 12) ;;
  statues <~ pushEach createTempleStatue (seqZ 0 6) ;;
  eret (mkTemple (Some main) pillars statues []).

Definition createVillageBuilding (index : Z) : EnvM SceneryMesh :=
  w <~ Math_random ;;
  h <~ Math_random ;;
  d <~ Math_random ;;
  building <~ createShape ;;
  px <~ Math_random ;;
  pz <~ Math_random ;;
  let position := mkVector3 ((px - 0.5) * 200) 3 ((pz - 0.5) * 200) in
  let name := "building_mat_" ++ JSString.ofNumber index in
  u <~ newSceneryMaterial name ;;
  r <~ Math_random ;;
  g <~ Math_random ;;
  b <~ Math_random ;;
  roof <~ createShape ;;
  u <~ newSceneryMaterial ("roof_mat_" ++ JSString.ofNumber index) ;;
  eret (mkSceneryMesh building
          ("village_building_" ++ JSString.ofNumber index)
          (Box (8 + w * 4) (6 + h * 4) (8 + d * 4))
          position
          (mkSceneryMaterial name 0 0.8
             (mkColor3 (0.6 + r * 0.2) (0.4 + g * 0.2) (0.2 + b * 0.2)))).

Definition createVillageCenter : EnvM SceneryMesh :=
  center <~ createShape ;;
  u <~ newSceneryMaterial "center_mat" ;;
  eret (mkSceneryMesh center "village_center" (Cylinder 20 8 None)
          (mkVector3 0 4 0)
          (mkSceneryMaterial "center_mat" 0 0.7 (mkColor3 0.7 0.6 0.4))).

Definition createVillageWell : EnvM SceneryMesh :=
  well <~ createShape ;;
  u <~ newSceneryMaterial "well_mat" ;;
  eret (mkSceneryMesh well "village_well" (Cylinder 3 4 None)
          (mkVector3 20 2 20)
          (mkSceneryMaterial "well_mat" 0.3 0.5 (mkColor3 0.5 0.5 0.5))).

(** The object that [createVillageEnvironment] stores under ['village']. *)
Definition createVillageEnvironment : EnvM VillageEnvironment :=
  buildings <~ pushEach createVillageBuilding (seqZ 0 15) ;;
  villageCenter <~ createVillageCenter ;;
  well <~ createVillageWell ;;
  eret (mkVillage (buildings ++ [villageCenter]) [] [well]).

End Environments.

(** Distance of a mesh from a vertical axis through [(cx, cz)], squared. *)
Definition axisDistance2 (cx cz : R) (m : SceneryMesh) : R :=
  ((v_x (s_position m) - cx) * (v_x (s_position m) - cx)
   + (v_z (s_position m) - cz) * (v_z (s_position m) - cz))%R.


(** A move far away after the first tick of the walk. *)
Definition walkTeleported : AdvancedWorldSystem :=
  updatePlayerPosition (mkVector3 1000 0 0) walkLoaded.

(** A system with a negative render distance, after a tick, a move and
    another tick; and one into which [loadChunk] has put a chunk. *)
Definition idleConfig : WorldConfig := mkWorldConfig 100 (-2) 25 true true.

Definition idleWorld : AdvancedWorldSystem :=
  updateChunkLoading cornersOnly
    (updatePlayerPosition (mkVector3 250 0 0)
       (updateChunkLoading cornersOnly (newWorld emptyScene idleConfig []))).

Definition idleStocked : AdvancedWorldSystem :=
  loadChunk cornersOnly 0 0 (newWorld emptyScene idleConfig []).

(** The system as the game constructs it, in an empty scene. *)
Definition gameWorld : AdvancedWorldSystem :=
  newWorld emptyScene gameWorldConfig [].

(** * Properties *)

(** ** Keys are read back as written *)

Section KeyFacts.

Import JSString.

Lemma Number_ofNumber (n : Z) : Number (ofNumber n) = Some n.
Proof.
  unfold Number, ofNumber.
  rewrite NilEmpty.isi. simpl. f_equal. apply DecimalZ.of_to.
Qed.

Lemma split_go_app (acc s t : string) :
  ","%char ∉ chars s →
  split_go acc (s ++ String "," t) = (acc ++ s) :: split_go EmptyString t.
Proof.
  revert acc. induction s as [|c s IH]; intros acc Hs; simpl.
  - f_equal. induction acc; simpl; congruence.
  - simpl in Hs. apply not_elem_of_cons in Hs as [Hc Hs].
    destruct (Ascii.eqb_spec c ","); [congruence|].
    rewrite IH by done. f_equal.
    clear. induction acc; simpl; congruence.
Qed.

Lemma split_go_nocomma (acc s : string) :
  ","%char ∉ chars s → split_go acc s = [acc ++ s].
Proof.
  revert acc. induction s as [|c s IH]; intros acc Hs; simpl.
  - f_equal. induction acc; simpl; congruence.
  - simpl in Hs. apply not_elem_of_cons in Hs as [Hc Hs].
    destruct (Ascii.eqb_spec c ","); [congruence|].
    rewrite IH by done. f_equal.
    clear. induction acc; simpl; congruence.
Qed.

Lemma chars_uint_nocomma (d : uint) :
  ","%char ∉ chars (NilEmpty.string_of_uint d).
Proof.
  induction d; simpl; [apply not_elem_of_nil|..];
    (apply not_elem_of_cons; split; [discriminate|assumption]).
Qed.

Lemma chars_ofNumber_nocomma (n : Z) : ","%char ∉ chars (ofNumber n).
Proof.
  unfold ofNumber. destruct (Z.to_int n) as [d|d]; simpl.
  - apply chars_uint_nocomma.
  - apply not_elem_of_cons; split; [discriminate|apply chars_uint_nocomma].
Qed.

Lemma split_chunkKey (x z : Z) :
  split (chunkKey x z) = [ofNumber x; ofNumber z].
Proof.
  unfold split, chunkKey.
  change ("," ++ ofNumber z) with (String ","%char (ofNumber z)).
  rewrite split_go_app by apply chars_ofNumber_nocomma.
  rewrite split_go_nocomma by apply chars_ofNumber_nocomma.
  reflexivity.
Qed.

(** Reading a key back gives the indices it was written from. *)
Lemma parseKey_chunkKey (x z : Z) :
  parseKey (chunkKey x z) = (Some x, Some z).
Proof.
  unfold parseKey. rewrite split_chunkKey. simpl.
  by rewrite !Number_ofNumber.
Qed.

Lemma chunkKey_inj (x z x' z' : Z) :
  chunkKey x z = chunkKey x' z' → x = x' ∧ z = z'.
Proof.
  intros E. apply (f_equal parseKey) in E.
  rewrite !parseKey_chunkKey in E. by simplify_eq.
Qed.

End KeyFacts.

Example chunkKey_example : chunkKey (-1) 12 = "-1,12".
Proof. reflexivity. Qed.

Example parseKey_example : parseKey "-1,12" = (Some (-1), Some 12).
Proof. reflexivity. Qed.

(** ** Container laws *)

Section ContainerFacts.

Lemma JSSet_has_true (k : string) (s : list string) :
  JSSet.has k s = true ↔ k ∈ s.
Proof. unfold JSSet.has. apply bool_decide_eq_true. Qed.

Lemma JSSet_has_false (k : string) (s : list string) :
  JSSet.has k s = false ↔ k ∉ s.
Proof. unfold JSSet.has. apply bool_decide_eq_false. Qed.

Lemma JSSet_elem_of_add (k k' : string) (s : list string) :
  k' ∈ JSSet.add k s ↔ k' = k ∨ k' ∈ s.
Proof.
  unfold JSSet.add. destruct (JSSet.has k s) eqn:E.
  - apply JSSet_has_true in E. naive_solver.
  - rewrite elem_of_app, list_elem_of_singleton. naive_solver.
Qed.

Lemma JSSet_add_present (k : string) (s : list string) :
  k ∈ s → JSSet.add k s = s.
Proof. intros H%JSSet_has_true. unfold JSSet.add. by rewrite H. Qed.

Lemma JSSet_add_absent (k : string) (s : list string) :
  k ∉ s → JSSet.add k s = (s ++ [k])%list.
Proof. intros H%JSSet_has_false. unfold JSSet.add. by rewrite H. Qed.

Lemma JSSet_elem_of_delete (k k' : string) (s : list string) :
  k' ∈ JSSet.delete k s ↔ k' ≠ k ∧ k' ∈ s.
Proof. unfold JSSet.delete. by rewrite list_elem_of_filter. Qed.


Lemma JSSet_NoDup_add (k : string) (s : list string) :
  NoDup s → NoDup (JSSet.add k s).
Proof.
  intros H. unfold JSSet.add. destruct (JSSet.has k s) eqn:E; [done|].
  apply JSSet_has_false in E. apply NoDup_app. split_and!; [done| |].
  - intros x Hx ->%list_elem_of_singleton. done.
  - apply NoDup_singleton.
Qed.

Lemma JSSet_NoDup_delete (k : string) (s : list string) :
  NoDup s → NoDup (JSSet.delete k s).
Proof. apply NoDup_filter. Qed.

Context {V : Type}.
Implicit Types m : list (string * V).

Lemma JSMap_keys_cons (k : string) (v : V) m :
  JSMap.keys ((k, v) :: m) = k :: JSMap.keys m.
Proof. reflexivity. Qed.

Lemma JSMap_keys_set (k : string) (v : V) m :
  JSMap.keys (JSMap.set k v m) = JSSet.add k (JSMap.keys m).
Proof.
  induction m as [|[k' v'] m IH]; [done|]. simpl JSMap.set.
  destruct (decide (k' = k)) as [->|Hne]; rewrite !JSMap_keys_cons.
  - rewrite JSSet_add_present; [done|]. left.
  - rewrite IH. unfold JSSet.add at 2.
    destruct (JSSet.has k (k' :: JSMap.keys m)) eqn:E.
    + apply JSSet_has_true in E. apply elem_of_cons in E as [?|E]; [done|].
      by rewrite JSSet_add_present.
    + apply JSSet_has_false in E. apply not_elem_of_cons in E as [_ E].
      by rewrite JSSet_add_absent.
Qed.

Lemma JSMap_keys_delete (k : string) m :
  JSMap.keys (JSMap.delete k m) = JSSet.delete k (JSMap.keys m).
Proof.
  unfold JSMap.delete, JSSet.delete.
  induction m as [|[k' v'] m IH]; [done|]. rewrite JSMap_keys_cons.
  destruct (decide (k' = k)) as [->|Hne].
  - rewrite !filter_cons_False by naive_solver. done.
  - rewrite !filter_cons_True by done. rewrite JSMap_keys_cons. by rewrite IH.
Qed.

Lemma JSMap_get_None (k : string) m :
  JSMap.get k m = None ↔ k ∉ JSMap.keys m.
Proof.
  unfold JSMap.keys. induction m as [|[k' v'] m IH]; simpl.
  - split; [intros _; apply not_elem_of_nil|done].
  - rewrite not_elem_of_cons. destruct (decide (k' = k)); naive_solver.
Qed.


Lemma JSMap_get_elem_of (k : string) (v : V) m :
  JSMap.get k m = Some v → (k, v) ∈ m.
Proof.
  induction m as [|[k' v'] m IH]; simpl; [done|].
  destruct (decide (k' = k)) as [->|Hne].
  - intros [= ->]. left.
  - intros H. right. by apply IH.
Qed.

Lemma JSMap_get_set (k k' : string) (v : V) m :
  JSMap.get k' (JSMap.set k v m) =
  if decide (k = k') then Some v else JSMap.get k' m.
Proof.
  induction m as [|[k0 v0] m IH]; simpl.
  - done.
  - destruct (decide (k0 = k)) as [->|Hne]; simpl.
    + destruct (decide (k = k')); done.
    + rewrite IH. destruct (decide (k0 = k')), (decide (k = k')); congruence.
Qed.

Lemma JSMap_get_delete (k k' : string) m :
  JSMap.get k' (JSMap.delete k m) =
  if decide (k = k') then None else JSMap.get k' m.
Proof.
  unfold JSMap.delete. induction m as [|[k0 v0] m IH]; simpl.
  - by destruct (decide (k = k')).
  - destruct (decide (k0 = k)) as [->|Hne].
    + rewrite filter_cons_False by naive_solver. rewrite IH.
      destruct (decide (k = k')); done.
    + rewrite filter_cons_True by done. simpl. rewrite IH.
      destruct (decide (k0 = k')), (decide (k = k')); congruence.
Qed.

Lemma JSMap_elem_of_set (k : string) (v : V) (e : string * V) m :
  e ∈ JSMap.set k v m → e = (k, v) ∨ e ∈ m.
Proof.
  induction m as [|[k0 v0] m IH]; simpl.
  - intros ->%list_elem_of_singleton. by left.
  - destruct (decide (k0 = k)) as [->|Hne].
    + intros [->|H]%elem_of_cons; [by left|]. right. by right.
    + intros [->|H]%elem_of_cons; [right; left|].
      destruct (IH H) as [->|?]; [by left|]. right. by right.
Qed.

Lemma JSMap_elem_of_delete (k : string) (e : string * V) m :
  e ∈ JSMap.delete k m ↔ e.1 ≠ k ∧ e ∈ m.
Proof. unfold JSMap.delete. by rewrite list_elem_of_filter. Qed.

End ContainerFacts.

(** ** Loops as folds *)

Section LoopFacts.

Context {S : Type}.

Lemma forRange_nested (a b c d : Z) (f : Z → Z → S → S) (s : S) :
  forRange a b (λ x s, forRange c d (λ z s, f x z s) s) s =
  foldl (λ s xz, f xz.1 xz.2 s) s
        (x ← seqZ a (b - a + 1); z ← seqZ c (d - c + 1); [(x, z)]).
Proof.
  unfold forRange. generalize (seqZ c (d - c + 1)) as l2.
  generalize (seqZ a (b - a + 1)) as l1. intros l1 l2. revert s.
  induction l1 as [|x l1 IH]; intros s; [done|].
  rewrite bind_cons, foldl_app. simpl. rewrite IH. f_equal.
  clear. revert s. induction l2 as [|z l2 IH]; intros s; [done|].
  simpl. by rewrite IH.
Qed.

Lemma foldl_preserves {A} (P : S → Prop) (f : S → A → S) (l : list A) (s : S) :
  (∀ s a, P s → P (f s a)) → P s → P (foldl f s l).
Proof.
  intros Hf. revert s. induction l as [|a l IH]; intros s Hs; [done|].
  simpl. apply IH. by apply Hf.
Qed.

Lemma foldl_project {A T} (π : S → T) (f : S → A → S) (g : T → A → T)
    (l : list A) (s : S) :
  (∀ s a, π (f s a) = g (π s) a) → π (foldl f s l) = foldl g (π s) l.
Proof.
  intros Hf. revert s. induction l as [|a l IH]; intros s; [done|].
  simpl. by rewrite IH, Hf.
Qed.

Lemma foldl_pointwise {A} (f g : S → A → S) (l : list A) (s : S) :
  (∀ s a, f s a = g s a) → foldl f s l = foldl g s l.
Proof.
  intros H. revert s. induction l as [|a l IH]; intros s; [done|].
  simpl. by rewrite H, IH.
Qed.

Lemma foldl_fixed {A} (f : S → A → S) (l : list A) (s : S) :
  (∀ a, a ∈ l → f s a = s) → foldl f s l = s.
Proof.
  induction l as [|a l IH]; intros H; [done|]. simpl.
  rewrite H by left. apply IH. intros b Hb. apply H. by right.
Qed.

End LoopFacts.

Lemma elem_of_scan (x z chunkX chunkZ rd : Z) :
  (x, z) ∈ scan chunkX chunkZ rd ↔ chebyshev x z chunkX chunkZ ≤ rd.
Proof.
  unfold scan, chebyshev. rewrite list_elem_of_bind. split.
  - intros (x' & (z' & E & Hz)%list_elem_of_bind & Hx).
    apply list_elem_of_singleton in E. simplify_eq.
    apply elem_of_seqZ in Hx, Hz. lia.
  - intros H. exists x. split.
    + apply list_elem_of_bind. exists z. split; [by left|].
      apply elem_of_seqZ. lia.
    + apply elem_of_seqZ. lia.
Qed.

Lemma elem_of_foldl_add {A} (key : A → string) (l : list A)
    (s : list string) (k : string) :
  k ∈ foldl (λ s a, JSSet.add (key a) s) s l ↔ k ∈ s ∨ ∃ a, a ∈ l ∧ k = key a.
Proof.
  revert s. induction l as [|a l IH]; intros s; simpl.
  - split; [by left|]. intros [?|(a & Ha & _)]; [done|]. by inversion Ha.
  - rewrite IH, JSSet_elem_of_add. split.
    + intros [[->|?]|(b & Hb & ->)]; [right|by left|right].
      * exists a. split; [left|done].
      * exists b. split; [by right|done].
    + intros [?|(b & [->|Hb]%elem_of_cons & ->)].
      * left. by right.
      * left. by left.
      * right. by exists b.
Qed.

Lemma elem_of_foldl_delete (l s : list string) (k : string) :
  k ∈ foldl (λ s k', JSSet.delete k' s) s l ↔ k ∈ s ∧ k ∉ l.
Proof.
  revert s. induction l as [|a l IH]; intros s; simpl.
  - split; [|by intros []]. intros H. split; [done|apply not_elem_of_nil].
  - rewrite IH, JSSet_elem_of_delete, not_elem_of_cons. naive_solver.
Qed.

(** ** The streaming loop, operation by operation *)

Section WorldFacts.

Variable groundPositions : R → R → Z → list R.

Implicit Types (w : AdvancedWorldSystem) (x z px pz : Z) (k : string).

Lemma loadChunk_eq x z w :
  loadChunk groundPositions x z w =
  if JSSet.has (chunkKey x z) (loadedChunks w) then w
  else mkWorld (generateChunk groundPositions (config w) x z (scene w)).2 (config w)
         (JSMap.set (chunkKey x z)
            (generateChunk groundPositions (config w) x z (scene w)).1 (chunks w))
         (playerPosition w)
         (JSSet.add (chunkKey x z) (loadedChunks w))
         (environments w)
         (console w ++ [LoadedChunk (chunkKey x z)]).
Proof.
  unfold loadChunk.
  destruct (JSSet.has _ _); [done|]. by destruct (generateChunk _ _ _ _ _).
Qed.

Lemma loadChunk_present x z w :
  chunkKey x z ∈ loadedChunks w → loadChunk groundPositions x z w = w.
Proof. intros H%JSSet_has_true. by rewrite loadChunk_eq, H. Qed.

Lemma loadChunk_config x z w : config (loadChunk groundPositions x z w) = config w.
Proof. rewrite loadChunk_eq. by destruct (JSSet.has _ _). Qed.

Lemma loadChunk_playerPosition x z w :
  playerPosition (loadChunk groundPositions x z w) = playerPosition w.
Proof. rewrite loadChunk_eq. by destruct (JSSet.has _ _). Qed.

Lemma loadChunk_environments x z w :
  environments (loadChunk groundPositions x z w) = environments w.
Proof. rewrite loadChunk_eq. by destruct (JSSet.has _ _). Qed.

Lemma loadChunk_loadedChunks x z w :
  loadedChunks (loadChunk groundPositions x z w) = JSSet.add (chunkKey x z) (loadedChunks w).
Proof.
  rewrite loadChunk_eq. destruct (JSSet.has _ _) eqn:E; [|done].
  apply JSSet_has_true in E. by rewrite JSSet_add_present.
Qed.

Lemma loadChunk_consistent x z w :
  consistent w → consistent (loadChunk groundPositions x z w).
Proof.
  unfold consistent. intros Hc. rewrite loadChunk_eq.
  destruct (JSSet.has _ _); [done|]. simpl.
  by rewrite JSMap_keys_set, Hc.
Qed.

Lemma loadChunksInRange_fold px pz w :
  loadChunksInRange groundPositions px pz w =
  foldl (λ w xz, loadChunk groundPositions xz.1 xz.2 w) w
        (scan px pz (renderDistance (config w))).
Proof.
  unfold loadChunksInRange, scan. rewrite forRange_nested.
  apply foldl_pointwise. intros w' [x z]. simpl.
  destruct (JSSet.has _ _) eqn:E; [|done]. simpl.
  apply JSSet_has_true in E. by rewrite loadChunk_present.
Qed.

#[local] Abbreviation generateChunk := (generateChunk groundPositions).
#[local] Abbreviation loadChunk := (loadChunk groundPositions).
#[local] Abbreviation loadChunksInRange := (loadChunksInRange groundPositions).
#[local] Abbreviation updateChunkLoading := (updateChunkLoading groundPositions).
#[local] Abbreviation reachable := (reachable groundPositions).

Lemma loadChunksInRange_config px pz w :
  config (loadChunksInRange px pz w) = config w.
Proof.
  rewrite loadChunksInRange_fold.
  apply (foldl_preserves (λ w', config w' = config w)); [|done].
  intros w' a <-. apply loadChunk_config.
Qed.

Lemma loadChunksInRange_playerPosition px pz w :
  playerPosition (loadChunksInRange px pz w) = playerPosition w.
Proof.
  rewrite loadChunksInRange_fold.
  apply (foldl_preserves (λ w', playerPosition w' = playerPosition w));
    [|done].
  intros w' a <-. apply loadChunk_playerPosition.
Qed.

Lemma loadChunksInRange_environments px pz w :
  environments (loadChunksInRange px pz w) = environments w.
Proof.
  rewrite loadChunksInRange_fold.
  apply (foldl_preserves (λ w', environments w' = environments w)); [|done].
  intros w' a <-. apply loadChunk_environments.
Qed.

Lemma loadChunksInRange_loadedChunks px pz w :
  loadedChunks (loadChunksInRange px pz w) =
  foldl (λ s xz, JSSet.add (chunkKey xz.1 xz.2) s) (loadedChunks w)
        (scan px pz (renderDistance (config w))).
Proof.
  rewrite loadChunksInRange_fold. apply foldl_project.
  intros w' [x z]. apply loadChunk_loadedChunks.
Qed.

Lemma elem_of_loadChunksInRange px pz w k :
  k ∈ loadedChunks (loadChunksInRange px pz w) ↔
  k ∈ loadedChunks w
  ∨ ∃ x z, chebyshev x z px pz ≤ renderDistance (config w) ∧ k = chunkKey x z.
Proof.
  rewrite loadChunksInRange_loadedChunks, elem_of_foldl_add.
  split; (intros [?|H]; [by left|right]).
  - destruct H as ([x z] & H%elem_of_scan & ->). by exists x, z.
  - destruct H as (x & z & H & ->). exists (x, z).
    by rewrite elem_of_scan.
Qed.

Lemma loadChunksInRange_consistent px pz w :
  consistent w → consistent (loadChunksInRange px pz w).
Proof.
  rewrite loadChunksInRange_fold. apply foldl_preserves.
  intros w' [x z]. apply loadChunk_consistent.
Qed.

Lemma loadChunksInRange_fixed px pz w :
  (∀ x z, chebyshev x z px pz ≤ renderDistance (config w) → resident w x z) →
  loadChunksInRange px pz w = w.
Proof.
  intros H. rewrite loadChunksInRange_fold. apply foldl_fixed.
  intros [x z] Hxz%elem_of_scan. apply loadChunk_present. by apply H.
Qed.

Lemma unloadChunk_config w k : config (unloadChunk w k) = config w.
Proof. reflexivity. Qed.

Lemma unloadChunk_loadedChunks w k :
  loadedChunks (unloadChunk w k) = JSSet.delete k (loadedChunks w).
Proof. reflexivity. Qed.

Lemma unloadChunk_chunks w k :
  chunks (unloadChunk w k) = JSMap.delete k (chunks w).
Proof. reflexivity. Qed.

Lemma unloadChunk_consistent w k :
  consistent w → consistent (unloadChunk w k).
Proof.
  unfold consistent. intros Hc. simpl. by rewrite JSMap_keys_delete, Hc.
Qed.

Lemma unloadDistantChunks_config px pz w :
  config (unloadDistantChunks px pz w) = config w.
Proof.
  unfold unloadDistantChunks.
  by apply (foldl_preserves (λ w', config w' = config w)).
Qed.

Lemma unloadDistantChunks_playerPosition px pz w :
  playerPosition (unloadDistantChunks px pz w) = playerPosition w.
Proof.
  unfold unloadDistantChunks.
  by apply (foldl_preserves (λ w', playerPosition w' = playerPosition w)).
Qed.

Lemma unloadDistantChunks_environments px pz w :
  environments (unloadDistantChunks px pz w) = environments w.
Proof.
  unfold unloadDistantChunks.
  by apply (foldl_preserves (λ w', environments w' = environments w)).
Qed.

Lemma unloadDistantChunks_consistent px pz w :
  consistent w → consistent (unloadDistantChunks px pz w).
Proof.
  unfold unloadDistantChunks. apply foldl_preserves.
  intros w' k. apply unloadChunk_consistent.
Qed.

Lemma elem_of_chunksToUnload px pz w k :
  k ∈ chunksToUnload px pz w ↔
  k ∈ loadedChunks w ∧ isDistant (config w) px pz k = true.
Proof.
  unfold chunksToUnload. by rewrite !list_elem_of_In, filter_In.
Qed.

Lemma elem_of_unloadDistantChunks px pz w k :
  k ∈ loadedChunks (unloadDistantChunks px pz w) ↔
  k ∈ loadedChunks w ∧ isDistant (config w) px pz k = false.
Proof.
  unfold unloadDistantChunks.
  rewrite (foldl_project loadedChunks unloadChunk
             (λ s k', JSSet.delete k' s)) by done.
  rewrite elem_of_foldl_delete, elem_of_chunksToUnload.
  destruct (isDistant (config w) px pz k); naive_solver.
Qed.

Lemma unloadDistantChunks_fixed px pz w :
  (∀ k, k ∈ loadedChunks w → isDistant (config w) px pz k = false) →
  unloadDistantChunks px pz w = w.
Proof.
  intros H. unfold unloadDistantChunks.
  replace (chunksToUnload px pz w) with (@nil string); [done|].
  symmetry. apply elem_of_nil_inv. intros k [Hk E]%elem_of_chunksToUnload.
  rewrite H in E by done. done.
Qed.

Lemma keyDistance_chunkKey px pz x z :
  keyDistance px pz (chunkKey x z) = Some (chebyshev x z px pz).
Proof. unfold keyDistance. by rewrite parseKey_chunkKey. Qed.

Lemma isDistant_chunkKey cfg px pz x z :
  isDistant cfg px pz (chunkKey x z) =
  bool_decide (chebyshev x z px pz > renderDistance cfg + 1).
Proof. unfold isDistant. by rewrite keyDistance_chunkKey. Qed.

Lemma updateChunkLoading_eq w :
  updateChunkLoading w =
  unloadDistantChunks (playerChunk w).1 (playerChunk w).2
    (loadChunksInRange (playerChunk w).1 (playerChunk w).2 w).
Proof. reflexivity. Qed.

Lemma updateChunkLoading_config w :
  config (updateChunkLoading w) = config w.
Proof.
  rewrite updateChunkLoading_eq.
  by rewrite unloadDistantChunks_config, loadChunksInRange_config.
Qed.

Lemma updateChunkLoading_playerPosition w :
  playerPosition (updateChunkLoading w) = playerPosition w.
Proof.
  rewrite updateChunkLoading_eq.
  by rewrite unloadDistantChunks_playerPosition,
    loadChunksInRange_playerPosition.
Qed.

Lemma updateChunkLoading_environments w :
  environments (updateChunkLoading w) = environments w.
Proof.
  rewrite updateChunkLoading_eq.
  by rewrite unloadDistantChunks_environments,
    loadChunksInRange_environments.
Qed.

Lemma updateChunkLoading_playerChunk w :
  playerChunk (updateChunkLoading w) = playerChunk w.
Proof.
  unfold playerChunk.
  by rewrite updateChunkLoading_config, updateChunkLoading_playerPosition.
Qed.

Lemma updateChunkLoading_consistent w :
  consistent w → consistent (updateChunkLoading w).
Proof.
  intros H. rewrite updateChunkLoading_eq.
  by apply unloadDistantChunks_consistent, loadChunksInRange_consistent.
Qed.

(** Which keys the loaded set holds after a tick. *)
Lemma elem_of_updateChunkLoading w k :
  k ∈ loadedChunks (updateChunkLoading w) ↔
  (k ∈ loadedChunks w
   ∨ ∃ x z, chebyshev x z (playerChunk w).1 (playerChunk w).2
              ≤ renderDistance (config w) ∧ k = chunkKey x z)
  ∧ isDistant (config w) (playerChunk w).1 (playerChunk w).2 k = false.
Proof.
  rewrite updateChunkLoading_eq, elem_of_unloadDistantChunks.
  by rewrite elem_of_loadChunksInRange, loadChunksInRange_config.
Qed.

(** Which cells are resident after a tick. *)
Lemma resident_updateChunkLoading w x z :
  resident (updateChunkLoading w) x z ↔
  chebyshev x z (playerChunk w).1 (playerChunk w).2 ≤ renderDistance (config w)
  ∨ (resident w x z
     ∧ chebyshev x z (playerChunk w).1 (playerChunk w).2
         ≤ renderDistance (config w) + 1).
Proof.
  unfold resident. rewrite elem_of_updateChunkLoading, isDistant_chunkKey.
  rewrite bool_decide_eq_false. split.
  - intros [[H|(x' & z' & H & [-> ->]%chunkKey_inj)] Hd]; [right|by left].
    split; [done|lia].
  - intros [H|[H Hd]].
    + split; [|lia]. right. by exists x, z.
    + split; [by left|lia].
Qed.

End WorldFacts.

(** ** The terrain generator *)

Lemma list_triple_ind {A} (P : list A → Prop) :
  P [] → (∀ a, P [a]) → (∀ a b, P [a; b]) →
  (∀ a b c rest, P rest → P (a :: b :: c :: rest)) →
  ∀ l, P l.
Proof.
  intros H0 H1 H2 H3 l.
  assert (P l ∧ (∀ a, P (a :: l)) ∧ (∀ a b, P (a :: b :: l))) as [? _];
    [|done].
  induction l as [|c l (IH0 & IH1 & IH2)]; [done|].
  split_and!; [apply IH1| intros; apply IH2 | intros; by apply H3].
Qed.

Section Trigonometry.
#[local] Open Scope R_scope.


(** On a non-negative dividend [% 1] is the fractional part. *)
Lemma Rrem_1_nonneg (a : R) : 0 <= a → Rrem a 1 = a - IZR (Zfloor a).
Proof.
  intros H. unfold Rrem, Rtrunc. replace (a / 1) with a by lra.
  destruct (Rle_dec 0 a); [lra|done].
Qed.

(** On a negative dividend the remainder is not positive: [%] truncates. *)
Lemma Rrem_1_neg (a : R) : a < 0 → Rrem a 1 = a - IZR (Zceil a).
Proof.
  intros H. unfold Rrem, Rtrunc. replace (a / 1) with a by lra.
  destruct (Rle_dec 0 a); [lra|lra].
Qed.

Lemma Rtrunc_opp (a : R) : Rtrunc (- a) = (- Rtrunc a)%Z.
Proof.
  unfold Rtrunc, Zceil.
  destruct (Rle_dec 0 (- a)) as [Hn|Hn], (Rle_dec 0 a) as [Hp|Hp].
  - assert (a = 0) as -> by lra. rewrite Ropp_0.
    rewrite (Zfloor_eq 0); [done|simpl; lra].
  - lia.
  - by rewrite Ropp_involutive.
  - lra.
Qed.

Lemma Rtrunc_IZR (k : Z) : Rtrunc (IZR k) = k.
Proof.
  unfold Rtrunc, Zceil. destruct (Rle_dec 0 (IZR k)).
  - apply ZfloorZ.
  - rewrite ZfloorNZ. lia.
Qed.

Lemma Rrem_1_opp (a : R) : Rrem (- a) 1 = - Rrem a 1.
Proof.
  unfold Rrem. replace (- a / 1) with (- (a / 1)) by lra.
  rewrite Rtrunc_opp, opp_IZR. lra.
Qed.

Lemma Rrem_1_IZR (k : Z) : Rrem (IZR k) 1 = 0.
Proof.
  unfold Rrem. replace (IZR k / 1) with (IZR k) by lra.
  rewrite Rtrunc_IZR. lra.
Qed.

Lemma Rrem_1_succ (a : R) : 0 <= a → Rrem (a + 1) 1 = Rrem a 1.
Proof.
  intros H. rewrite !Rrem_1_nonneg by lra.
  rewrite (Zfloor_addz 1), plus_IZR. lra.
Qed.




Example Rrem_minus_half : Rrem (-1 / 2) 1 = -1 / 2.
Proof.
  rewrite Rrem_1_neg by lra. unfold Zceil.
  rewrite (Zfloor_eq 0); [rewrite Z.opp_0; lra|]. simpl. lra.
Qed.

End Trigonometry.

Section GeneratorFacts.

Variable groundPositions : R → R → Z → list R.

Lemma getHeight_value (x z : R) (sc : Scene) :
  (getHeight x z sc).1 = heightSpec x z.
Proof. unfold getHeight, heightSpec, bind, ret. simpl. lra. Qed.

Lemma getHeight_scene (x z : R) (sc : Scene) :
  (getHeight x z sc).2 =
  mkScene (nextUniqueId sc) (meshes sc)
          (proceduralTextures sc ++ ["noise"]) (materials sc).
Proof. reflexivity. Qed.

Lemma applyHeightMap_loop_triple (cs : R) (cx cz : Z) (a b c : R)
    (rest : list R) (sc : Scene) :
  applyHeightMap_loop cs cx cz (a :: b :: c :: rest) sc =
  let h := heightSpec (a + IZR cx * cs) (c + IZR cz * cs) in
  let r := applyHeightMap_loop cs cx cz rest
             (getHeight (a + IZR cx * cs) (c + IZR cz * cs) sc).2 in
  (a :: h :: c :: r.1, r.2).
Proof.
  simpl. unfold bind at 1.
  rewrite (surjective_pairing (getHeight _ _ sc)), getHeight_value.
  unfold bind at 1. by destruct (applyHeightMap_loop _ _ _ _ _).
Qed.

Lemma applyHeightMap_loop_scene (cs : R) (cx cz : Z) (vs : list R)
    (sc : Scene) :
  let sc' := (applyHeightMap_loop cs cx cz vs sc).2 in
  nextUniqueId sc' = nextUniqueId sc ∧ meshes sc' = meshes sc
  ∧ materials sc' = materials sc.
Proof.
  revert sc. induction vs as [|a|a b|a b c rest IH] using list_triple_ind;
    intros sc; [done..|].
  rewrite applyHeightMap_loop_triple. cbv zeta. cbn [snd].
  destruct (IH (getHeight (a + IZR cx * cs) (c + IZR cz * cs) sc).2)
    as (-> & -> & ->).
  by rewrite getHeight_scene.
Qed.

Lemma applyHeightMap_loop_length (cs : R) (cx cz : Z) (vs : list R)
    (sc : Scene) :
  length (applyHeightMap_loop cs cx cz vs sc).1 = length vs.
Proof.
  revert sc. induction vs as [|a|a b|a b c rest IH] using list_triple_ind;
    intros sc; [done..|].
  rewrite applyHeightMap_loop_triple. simpl. by rewrite IH.
Qed.


Lemma generateChunk_eq (cfg : WorldConfig) (x z : Z) (sc : Scene) :
  generateChunk groundPositions cfg x z sc =
  let cs := chunkSize cfg in
  let pos := mkVector3 (IZR x * cs) 0 (IZR z * cs) in
  let sc1 :=
    mkScene (S (nextUniqueId sc)) (meshes sc ++ [nextUniqueId sc])
            (proceduralTextures sc) (materials sc) in
  let r := applyHeightMap_loop cs x z (groundPositions cs cs 50) sc1 in
  let biome := getBiome (IZR x * cs) (IZR z * cs) in
  let m := applyBiomeMaterials
             (mkMesh (nextUniqueId sc) ("chunk_" ++ chunkKey x z) pos
                     (Some r.1) None None) biome r.2 in
  (mkChunk
     (mkMesh (nextUniqueId sc) ("chunk_" ++ chunkKey x z) pos (Some r.1)
             (material m.1) (Some (mkPhysicsImpostor 0 0.9)))
     biome pos,
   m.2).
Proof.
  unfold generateChunk, CreateGround, applyHeightMap,
    applyBiomeMaterials, newPBRMaterial, bind, ret. simpl.
  by destruct (applyHeightMap_loop _ _ _ _ _).
Qed.
#[local] Abbreviation CreateGround := (CreateGround groundPositions).
#[local] Abbreviation generateChunk := (generateChunk groundPositions).

Lemma generateChunk_uniqueId (cfg : WorldConfig) (x z : Z) (sc : Scene) :
  uniqueId (mesh (generateChunk cfg x z sc).1) = nextUniqueId sc.
Proof. by rewrite generateChunk_eq. Qed.

Lemma generateChunk_scene (cfg : WorldConfig) (x z : Z) (sc : Scene) :
  let sc' := (generateChunk cfg x z sc).2 in
  nextUniqueId sc' = S (nextUniqueId sc)
  ∧ meshes sc' = (meshes sc ++ [nextUniqueId sc])%list.
Proof.
  rewrite generateChunk_eq. cbv zeta.
  unfold applyBiomeMaterials, newPBRMaterial, bind, ret. cbn [fst snd].
  cbn [nextUniqueId meshes].
  match goal with |- context [applyHeightMap_loop ?a ?b ?c ?d ?e] =>
    destruct (applyHeightMap_loop_scene a b c d e) as (-> & -> & _) end.
  done.
Qed.

Lemma generateChunk_position (cfg : WorldConfig) (x z : Z) (sc : Scene) :
  let c := (generateChunk cfg x z sc).1 in
  position c = mkVector3 (IZR x * chunkSize cfg) 0 (IZR z * chunkSize cfg)
  ∧ mesh_position (mesh c) = position c.
Proof. by rewrite generateChunk_eq. Qed.

Lemma generateChunk_biome (cfg : WorldConfig) (x z : Z) (sc : Scene) :
  biome (generateChunk cfg x z sc).1 =
  getBiome (IZR x * chunkSize cfg) (IZR z * chunkSize cfg).
Proof. by rewrite generateChunk_eq. Qed.

(** The subdivision count is the constant 50, whatever the flags say: the
    vertex buffer of a chunk is the engine's buffer for 50 subdivisions
    with the heights written into it. *)
Lemma generateChunk_resolution (cfg : WorldConfig) (x z : Z) (sc : Scene) :
  ∃ sc1 vs,
    vs = (applyHeightMap_loop (chunkSize cfg) x z
            (groundPositions (chunkSize cfg) (chunkSize cfg) 50) sc1).1
    ∧ verticesData (mesh (generateChunk cfg x z sc).1) = Some vs
    ∧ length vs
      = length (groundPositions (chunkSize cfg) (chunkSize cfg) 50).
Proof.
  rewrite generateChunk_eq. cbv zeta. cbn [mesh verticesData fst].
  eexists _, _. split; [done|]. split; [done|].
  apply applyHeightMap_loop_length.
Qed.

(** Of the configuration, chunk generation reads [chunkSize] only. *)
Lemma generateChunk_chunkSize (cfg cfg' : WorldConfig) (x z : Z) (sc : Scene) :
  chunkSize cfg = chunkSize cfg' →
  generateChunk cfg x z sc = generateChunk cfg' x z sc.
Proof. intros E. by rewrite !generateChunk_eq, E. Qed.


End GeneratorFacts.

(** ** What the reachable states satisfy *)

Lemma JSMap_set_absent {V} (k : string) (v : V) (m : list (string * V)) :
  k ∉ JSMap.keys m → JSMap.set k v m = (m ++ [(k, v)])%list.
Proof.
  induction m as [|[k' v'] m IH]; [done|]. rewrite JSMap_keys_cons.
  intros [Hne Hk]%not_elem_of_cons. simpl.
  destruct (decide (k' = k)); [congruence|]. by rewrite IH.
Qed.

Lemma NoDup_fmap_eq {A B} (f : A → B) (l : list A) (a b : A) :
  NoDup (f <$> l) → a ∈ l → b ∈ l → f a = f b → a = b.
Proof.
  intros Hnd [i Hi]%list_elem_of_lookup [j Hj]%list_elem_of_lookup E.
  assert (i = j) as ->; [|congruence].
  apply (NoDup_lookup _ i j (f a) Hnd).
  - by rewrite list_lookup_fmap, Hi.
  - by rewrite list_lookup_fmap, Hj, E.
Qed.

Lemma NoDup_fmap_filter {A B} (f : A → B) (P : A → Prop)
    `{!∀ a, Decision (P a)} (l : list A) :
  NoDup (f <$> l) → NoDup (f <$> filter P l).
Proof.
  intros Hnd. eapply sublist_NoDup; [exact Hnd|].
  apply fmap_sublist, sublist_filter.
Qed.

Section InvariantFacts.

Variable groundPositions : R → R → Z → list R.

#[local] Abbreviation loadChunk := (loadChunk groundPositions).
#[local] Abbreviation loadChunksInRange := (loadChunksInRange groundPositions).
#[local] Abbreviation updateChunkLoading := (updateChunkLoading groundPositions).
#[local] Abbreviation reachable := (reachable groundPositions).

Implicit Types (w : AdvancedWorldSystem) (x z px pz : Z) (k : string).

Lemma newWorld_invariant sc cfg envs :
  validConfig cfg → invariant (newWorld sc cfg envs).
Proof.
  intros Hv. split; try done.
  - apply NoDup_nil_2.
  - intros k Hk. by inversion Hk.
  - split; [|apply NoDup_nil_2]. intros e He. by inversion He.
Qed.

Lemma loadChunk_meshesOwned x z w :
  consistent w → meshesOwned w → meshesOwned (loadChunk x z w).
Proof.
  intros Hc [Hin Hnd]. rewrite loadChunk_eq.
  destruct (JSSet.has _ _) eqn:E; [done|].
  apply JSSet_has_false in E. rewrite <- Hc in E.
  unfold meshesOwned. cbn [chunks scene].
  rewrite JSMap_set_absent by done.
  destruct (generateChunk_scene groundPositions (config w) x z (scene w))
    as [-> ->].
  split.
  - intros e [He| ->%list_elem_of_singleton]%elem_of_app.
    + destruct (Hin e He). split; [apply elem_of_app; by left|lia].
    + cbn [snd]. rewrite generateChunk_uniqueId.
      split; [apply elem_of_app; right; left|lia].
  - rewrite fmap_app. apply NoDup_app. split_and!; [done| |apply NoDup_singleton].
    intros i (e & -> & He)%list_elem_of_fmap Hi.
    apply list_elem_of_singleton in Hi. cbn [snd] in Hi.
    rewrite generateChunk_uniqueId in Hi. destruct (Hin e He). lia.
Qed.

Lemma loadChunk_invariant x z w : invariant w → invariant (loadChunk x z w).
Proof.
  intros [Hv Hc Hnd Hk Hm]. split.
  - unfold validConfig. by rewrite loadChunk_config.
  - by apply loadChunk_consistent.
  - rewrite loadChunk_loadedChunks. by apply JSSet_NoDup_add.
  - intros k. rewrite loadChunk_loadedChunks, JSSet_elem_of_add.
    intros [->|?]; [by exists x, z|by apply Hk].
  - by apply loadChunk_meshesOwned.
Qed.

Lemma unloadChunk_meshesOwned w k : meshesOwned w → meshesOwned (unloadChunk w k).
Proof.
  intros [Hin Hnd]. unfold meshesOwned, unloadChunk. cbn [chunks scene].
  split; [|by apply NoDup_fmap_filter].
  intros e [Hne He]%JSMap_elem_of_delete. destruct (Hin e He) as [Hi Hlt].
  destruct (JSMap.get k (chunks w)) as [c|] eqn:Hg; [|done].
  cbn [dispose snd meshes nextUniqueId]. split; [|done].
  apply list_elem_of_filter. split; [|done].
  intros Heq. apply JSMap_get_elem_of in Hg.
  assert (e = (k, c)) as ->; [|done].
  by apply (NoDup_fmap_eq (λ e, uniqueId (mesh e.2)) (chunks w)).
Qed.

Lemma unloadChunk_invariant w k : invariant w → invariant (unloadChunk w k).
Proof.
  intros [Hv Hc Hnd Hk Hm]. split.
  - done.
  - by apply unloadChunk_consistent.
  - rewrite unloadChunk_loadedChunks. by apply JSSet_NoDup_delete.
  - intros k'. rewrite unloadChunk_loadedChunks, JSSet_elem_of_delete.
    intros [_ ?]. by apply Hk.
  - by apply unloadChunk_meshesOwned.
Qed.

Lemma loadChunksInRange_invariant px pz w :
  invariant w → invariant (loadChunksInRange px pz w).
Proof.
  rewrite loadChunksInRange_fold. apply foldl_preserves.
  intros w' [x z]. apply loadChunk_invariant.
Qed.

Lemma unloadDistantChunks_invariant px pz w :
  invariant w → invariant (unloadDistantChunks px pz w).
Proof.
  unfold unloadDistantChunks. apply foldl_preserves.
  intros w' k. apply unloadChunk_invariant.
Qed.

Lemma updateChunkLoading_invariant w :
  invariant w → invariant (updateChunkLoading w).
Proof.
  intros H. rewrite updateChunkLoading_eq.
  by apply unloadDistantChunks_invariant, loadChunksInRange_invariant.
Qed.

Lemma updatePlayerPosition_invariant position w :
  invariant w → invariant (updatePlayerPosition position w).
Proof. by intros []. Qed.

Lemma reachable_invariant w : reachable w → invariant w.
Proof.
  induction 1 as [sc cfg envs Hv|w _ IH|w position _ IH].
  - by apply newWorld_invariant.
  - by apply updateChunkLoading_invariant.
  - by apply updatePlayerPosition_invariant.
Qed.

Lemma invariant_uniqueCells w : invariant w → uniqueCells w.
Proof.
  intros [_ Hc Hnd Hk _] i j [k1 c1] [k2 c2] Hi Hj E.
  unfold canonicalKeys, consistent in *.
  rewrite <- Hc in Hnd, Hk. unfold JSMap.keys in *.
  assert (k1 ∈ (chunks w).*1) as (x1 & z1 & ->)%Hk.
  { apply list_elem_of_lookup. exists i. by rewrite list_lookup_fmap, Hi. }
  assert (k2 ∈ (chunks w).*1) as (x2 & z2 & ->)%Hk.
  { apply list_elem_of_lookup. exists j. by rewrite list_lookup_fmap, Hj. }
  cbn [fst] in E. rewrite !parseKey_chunkKey in E. simplify_eq.
  apply (NoDup_lookup _ i j (chunkKey x2 z2) Hnd).
  - by rewrite list_lookup_fmap, Hi.
  - by rewrite list_lookup_fmap, Hj.
Qed.

Lemma reachable_chunksGenerated w :
  reachable w → chunksGenerated groundPositions w.
Proof.
  induction 1 as [sc cfg envs Hv|w _ IH|w position _ IH].
  - intros e He. by inversion He.
  - rewrite updateChunkLoading_eq. unfold unloadDistantChunks.
    apply foldl_preserves.
    { intros w' k Hw' e [_ He]%JSMap_elem_of_delete. by apply Hw'. }
    rewrite loadChunksInRange_fold. apply foldl_preserves; [|done].
    intros w' [x z] Hw' e. rewrite loadChunk_eq.
    destruct (JSSet.has _ _); [apply Hw'|]. cbn [chunks config].
    intros [->|He]%JSMap_elem_of_set; [|by apply Hw'].
    by exists x, z, (scene w').
  - done.
Qed.

End InvariantFacts.

(** ** Effects of a tick on the map, the scene and the console *)

Section TickFacts.

Variable groundPositions : R → R → Z → list R.

#[local] Abbreviation generateChunk := (generateChunk groundPositions).
#[local] Abbreviation loadChunk := (loadChunk groundPositions).
#[local] Abbreviation loadChunksInRange := (loadChunksInRange groundPositions).
#[local] Abbreviation updateChunkLoading := (updateChunkLoading groundPositions).

Implicit Types (w : AdvancedWorldSystem) (x z px pz : Z) (k : string).

(** Loading a batch of cells none of which is loaded. *)
Lemma load_fresh_cells (l : list (Z * Z)) w :
  let keys := (λ c, chunkKey c.1 c.2) <$> l in
  let w' := foldl (λ w c, loadChunk c.1 c.2 w) w l in
  NoDup keys → (∀ k, k ∈ keys → k ∉ loadedChunks w) →
  loadedChunks w' = (loadedChunks w ++ keys)%list
  ∧ console w' = (console w ++ (LoadedChunk <$> keys))%list
  ∧ meshes (scene w')
    = (meshes (scene w) ++ seq (nextUniqueId (scene w)) (length l))%list
  ∧ nextUniqueId (scene w') = (nextUniqueId (scene w) + length l)%nat.
Proof.
  cbv zeta. revert w. induction l as [|[x z] l IH]; intros w Hnd Hfresh.
  - simpl. rewrite !app_nil_r. split_and!; [done..|lia].
  - rewrite fmap_cons in Hnd, Hfresh. apply NoDup_cons in Hnd as [Hx Hnd].
    cbn [fst snd] in *.
    assert (chunkKey x z ∉ loadedChunks w) as Hxz by (apply Hfresh; left).
    cbn [foldl fst snd].
    destruct (IH (loadChunk x z w) Hnd) as (-> & -> & -> & ->).
    { intros k Hk. rewrite loadChunk_loadedChunks, JSSet_elem_of_add.
      intros [->|?]; [done|]. apply (Hfresh k); [by right|done]. }
    rewrite loadChunk_loadedChunks, JSSet_add_absent by done.
    rewrite loadChunk_eq. apply JSSet_has_false in Hxz. rewrite Hxz.
    cbn [console scene].
    destruct (generateChunk_scene groundPositions (config w) x z (scene w))
      as [-> ->].
    rewrite fmap_cons. cbn [length seq].
    rewrite <- !app_assoc. split_and!; [done..|lia].
Qed.

(** After the loading loops nothing inside the square is distant. *)
Lemma loaded_from_empty_not_distant px pz w k :
  loadedChunks w = [] →
  k ∈ loadedChunks (loadChunksInRange px pz w) →
  isDistant (config w) px pz k = false.
Proof.
  intros He [Hk|(x & z & Hd & ->)]%elem_of_loadChunksInRange.
  - rewrite He in Hk. by inversion Hk.
  - rewrite isDistant_chunkKey. apply bool_decide_eq_false. lia.
Qed.

(** Entries of the map survive the loading loops. *)
Lemma loadChunk_get x z w k (c : Chunk) :
  consistent w → JSMap.get k (chunks w) = Some c →
  JSMap.get k (chunks (loadChunk x z w)) = Some c.
Proof.
  intros Hc Hg. rewrite loadChunk_eq.
  destruct (JSSet.has _ _) eqn:E; [done|]. cbn [chunks].
  rewrite JSMap_get_set. destruct (decide (chunkKey x z = k)) as [<-|]; [|done].
  apply JSSet_has_false in E. rewrite <- Hc in E.
  apply JSMap_get_None in E. congruence.
Qed.

Lemma loadChunksInRange_get px pz w k (c : Chunk) :
  consistent w → JSMap.get k (chunks w) = Some c →
  JSMap.get k (chunks (loadChunksInRange px pz w)) = Some c.
Proof.
  intros Hc Hg. rewrite loadChunksInRange_fold.
  apply (foldl_preserves
           (λ w', consistent w' ∧ JSMap.get k (chunks w') = Some c)); [|done].
  intros w' [x z] [Hc' Hg']. split.
  - by apply loadChunk_consistent.
  - by apply loadChunk_get.
Qed.

(** The loading loops only add load lines to the console. *)
Lemma loadChunksInRange_console px pz w :
  ∃ ks, console (loadChunksInRange px pz w)
        = (console w ++ (LoadedChunk <$> ks))%list.
Proof.
  rewrite loadChunksInRange_fold.
  apply (foldl_preserves
           (λ w', ∃ ks, console w' = (console w ++ (LoadedChunk <$> ks))%list)).
  - intros w' [x z] [ks Hks]. rewrite loadChunk_eq.
    destruct (JSSet.has _ _); [by exists ks|]. cbn [console fst snd].
    exists (ks ++ [chunkKey x z])%list.
    by rewrite Hks, fmap_app, <- app_assoc.
  - exists []. by rewrite app_nil_r.
Qed.

(** The unloading loop on the map. *)
Lemma unload_fold_get (l : list string) w k :
  JSMap.get k (chunks (foldl unloadChunk w l)) =
  if decide (k ∈ l) then None else JSMap.get k (chunks w).
Proof.
  revert w. induction l as [|a l IH]; intros w.
  - simpl. destruct (decide (k ∈ [])) as [H|]; [by inversion H|done].
  - cbn [foldl]. rewrite IH, unloadChunk_chunks, JSMap_get_delete.
    rewrite (decide_ext (k ∈ a :: l) (a = k ∨ k ∈ l))
      by (rewrite elem_of_cons; naive_solver).
    repeat case_decide; naive_solver.
Qed.

(** The unloading loop on the scene: the meshes of the unloaded chunks
    are disposed of, the others stay. *)
Lemma unload_fold_meshes (l : list string) w (i : nat) :
  i ∈ meshes (scene (foldl unloadChunk w l)) ↔
  i ∈ meshes (scene w)
  ∧ ∀ k c, k ∈ l → JSMap.get k (chunks w) = Some c → uniqueId (mesh c) ≠ i.
Proof.
  revert w. induction l as [|a l IH]; intros w.
  - simpl. split; [|by intros []]. intros H. split; [done|].
    intros k c Hk. by inversion Hk.
  - cbn [foldl]. rewrite IH. unfold unloadChunk at 1 2. cbn [scene chunks].
    split.
    + intros [Hi Hl]. split.
      * destruct (JSMap.get a (chunks w)); [|done].
        cbn [dispose snd meshes] in Hi.
        by apply list_elem_of_filter in Hi as [_ ?].
      * intros k c [->|Hk]%elem_of_cons Hg.
        -- rewrite Hg in Hi. cbn [dispose snd meshes] in Hi.
           apply list_elem_of_filter in Hi as [? _]. congruence.
        -- destruct (decide (a = k)) as [->|Hne].
           ++ rewrite Hg in Hi. cbn [dispose snd meshes] in Hi.
              apply list_elem_of_filter in Hi as [? _]. congruence.
           ++ apply (Hl k c Hk). rewrite JSMap_get_delete.
              by destruct (decide (a = k)).
    + intros [Hi Hl]. split.
      * destruct (JSMap.get a (chunks w)) as [c|] eqn:Hg; [|done].
        cbn [dispose snd meshes]. apply list_elem_of_filter. split; [|done].
        intros ->. by apply (Hl a c); [left|..].
      * intros k c Hk Hg. rewrite JSMap_get_delete in Hg.
        destruct (decide (a = k)); [done|]. apply (Hl k c); [by right|done].
Qed.

(** The unloading loop on the console. *)
Lemma unload_fold_console (l : list string) w :
  console (foldl unloadChunk w l) = (console w ++ (UnloadedChunk <$> l))%list.
Proof.
  revert w. induction l as [|a l IH]; intros w.
  - simpl. by rewrite app_nil_r.
  - cbn [foldl]. rewrite IH. cbn [unloadChunk console].
    by rewrite fmap_cons, <- app_assoc.
Qed.

(** Setting the unused flags commutes with every step. *)
Lemma loadChunk_withFlags mc dl lod x z w :
  loadChunk x z (withFlags mc dl lod w) = withFlags mc dl lod (loadChunk x z w).
Proof.
  rewrite !loadChunk_eq. cbn [withFlags loadedChunks].
  destruct (JSSet.has _ _); [done|]. cbn [config scene].
  by rewrite (generateChunk_chunkSize groundPositions _ (config w)).
Qed.

Lemma foldl_commute {S A} (h : S → S) (f : S → A → S) (l : list A) (s : S) :
  (∀ s a, f (h s) a = h (f s a)) → foldl f (h s) l = h (foldl f s l).
Proof.
  intros H. revert s. induction l as [|a l IH]; intros s; [done|].
  simpl. by rewrite H, IH.
Qed.

Lemma loadChunksInRange_withFlags mc dl lod px pz w :
  loadChunksInRange px pz (withFlags mc dl lod w) =
  withFlags mc dl lod (loadChunksInRange px pz w).
Proof.
  rewrite !loadChunksInRange_fold. cbn [withFlags config renderDistance].
  apply (foldl_commute (withFlags mc dl lod)).
  intros w' [x z]. apply loadChunk_withFlags.
Qed.

Lemma unloadDistantChunks_withFlags mc dl lod px pz w :
  unloadDistantChunks px pz (withFlags mc dl lod w) =
  withFlags mc dl lod (unloadDistantChunks px pz w).
Proof.
  unfold unloadDistantChunks.
  replace (chunksToUnload px pz (withFlags mc dl lod w))
    with (chunksToUnload px pz w) by done.
  by apply (foldl_commute (withFlags mc dl lod)).
Qed.

End TickFacts.

(** ** Counting the cells of the square *)

Lemma NoDup_scan (px pz rd : Z) : NoDup (scan px pz rd).
Proof.
  unfold scan. apply NoDup_bind; [| |apply NoDup_seqZ].
  - intros x1 x2 [x z] _ _ (z1 & E1 & _)%list_elem_of_bind
      (z2 & E2 & _)%list_elem_of_bind.
    apply list_elem_of_singleton in E1, E2. congruence.
  - intros x _. apply NoDup_bind; [| |apply NoDup_seqZ].
    + intros z1 z2 c _ _ E1%list_elem_of_singleton E2%list_elem_of_singleton.
      congruence.
    + intros z _. apply NoDup_singleton.
Qed.

Lemma length_scan (px pz rd : Z) :
  0 ≤ rd → length (scan px pz rd) = Z.to_nat ((2 * rd + 1) * (2 * rd + 1)).
Proof.
  intros Hrd. unfold scan.
  replace (px + rd - (px - rd) + 1) with (2 * rd + 1) by lia.
  replace (pz + rd - (pz - rd) + 1) with (2 * rd + 1) by lia.
  assert (∀ (l1 l2 : list Z),
    length (l1 ≫= λ x, l2 ≫= λ z, [(x, z)]) = (length l1 * length l2)%nat)
    as ->.
  { intros l1 l2. induction l1 as [|x l1 IH]; [done|].
    rewrite bind_cons, length_app, IH. simpl. f_equal.
    clear. induction l2 as [|z l2 IH]; [done|].
    rewrite bind_cons. simpl. by rewrite IH. }
  rewrite !length_seqZ. lia.
Qed.

Lemma NoDup_scan_keys (px pz rd : Z) :
  NoDup ((λ c, chunkKey c.1 c.2) <$> scan px pz rd).
Proof.
  apply NoDup_fmap_2_strong; [|apply NoDup_scan].
  intros [x z] [x' z'] _ _ [E1 E2]%chunkKey_inj. simpl in *. congruence.
Qed.

(** ** The player's chunk in the scenarios *)

Lemma playerChunk_at (position : Vector3) (cfg : WorldConfig)
    (w : AdvancedWorldSystem) (px pz : Z) :
  playerPosition w = position → config w = cfg →
  (IZR px <= v_x position / chunkSize cfg < IZR px + 1)%R →
  (IZR pz <= v_z position / chunkSize cfg < IZR pz + 1)%R →
  playerChunk w = (px, pz).
Proof.
  intros Hp Hc Hx Hz. unfold playerChunk. rewrite Hp, Hc.
  f_equal; by apply Zfloor_eq.
Qed.

(** * The streaming grid: statements about a tick *)

Section Claims.

Variable groundPositions : R → R → Z → list R.

#[local] Abbreviation generateChunk := (generateChunk groundPositions).
#[local] Abbreviation loadChunk := (loadChunk groundPositions).
#[local] Abbreviation loadChunksInRange := (loadChunksInRange groundPositions).
#[local] Abbreviation updateChunkLoading := (updateChunkLoading groundPositions).
#[local] Abbreviation reachable := (reachable groundPositions).

Implicit Types (w : AdvancedWorldSystem) (x z px pz : Z) (k : string).

(** The first tick of a system with nothing loaded: the cells of the scan
    are loaded in scan order, one mesh and one console line each, and
    nothing is unloaded. *)
Lemma first_tick w :
  loadedChunks w = [] →
  let cells :=
    scan (playerChunk w).1 (playerChunk w).2 (renderDistance (config w)) in
  let keys := (λ c, chunkKey c.1 c.2) <$> cells in
  let w' := updateChunkLoading w in
  loadedChunks w' = keys
  ∧ console w' = (console w ++ (LoadedChunk <$> keys))%list
  ∧ meshes (scene w')
    = (meshes (scene w) ++ seq (nextUniqueId (scene w)) (length cells))%list.
Proof.
  intros He. cbv zeta. rewrite updateChunkLoading_eq.
  rewrite unloadDistantChunks_fixed.
  2:{ intros k Hk. rewrite loadChunksInRange_config.
      by apply (loaded_from_empty_not_distant groundPositions _ _ w). }
  rewrite loadChunksInRange_fold.
  destruct (load_fresh_cells groundPositions
              (scan (playerChunk w).1 (playerChunk w).2
                    (renderDistance (config w))) w)
    as (-> & -> & -> & _).
  - apply NoDup_scan_keys.
  - intros k _. rewrite He. apply not_elem_of_nil.
  - by rewrite He.
Qed.

(** C1, as amended.  After a tick (the player's cell is the same before
    and after it) the resident cells are exactly the cells within
    [renderDistance] of the player's cell, together with the cells at
    distance exactly [renderDistance + 1] that were resident before the
    tick. *)
Theorem residency_after_tick w x z :
  validConfig (config w) →
  let w' := updateChunkLoading w in
  let d := chebyshev x z (playerChunk w').1 (playerChunk w').2 in
  resident w' x z ↔
  d ≤ renderDistance (config w')
  ∨ (d = renderDistance (config w') + 1 ∧ resident w x z).
Proof.
  intros _. cbv zeta.
  rewrite updateChunkLoading_playerChunk, updateChunkLoading_config.
  rewrite resident_updateChunkLoading. split.
  - intros [?|[? ?]]; [by left|].
    destruct (decide (chebyshev x z (playerChunk w).1 (playerChunk w).2
                      ≤ renderDistance (config w))); [by left|right].
    split; [lia|done].
  - intros [?|[? ?]]; [by left|right]. split; [done|lia].
Qed.

(** C2.  A chunk resident in a reachable state has an entry in the chunk
    map and a ground mesh in the scene.  A tick removes it from the loaded
    set and from the map and disposes of its mesh when its distance from
    the player's cell exceeds [renderDistance + 1]; at any distance up to
    [renderDistance + 1], that distance included, the tick leaves all
    three in place.  The tick adds to the console its load lines and then
    its unload lines, and the chunk is among the unloaded if and only if
    its distance exceeds [renderDistance + 1]. *)
Theorem unload_iff_beyond_hysteresis w x z :
  reachable w → resident w x z →
  let w' := updateChunkLoading w in
  let d := chebyshev x z (playerChunk w).1 (playerChunk w).2 in
  let rd := renderDistance (config w) in
  ∃ c, JSMap.get (chunkKey x z) (chunks w) = Some c
       ∧ uniqueId (mesh c) ∈ meshes (scene w)
       ∧ (d > rd + 1 →
            ¬ resident w' x z
            ∧ JSMap.get (chunkKey x z) (chunks w') = None
            ∧ uniqueId (mesh c) ∉ meshes (scene w'))
       ∧ (d ≤ rd + 1 →
            resident w' x z
            ∧ JSMap.get (chunkKey x z) (chunks w') = Some c
            ∧ uniqueId (mesh c) ∈ meshes (scene w'))
       ∧ ∃ loaded unloaded,
           console w'
           = (console w ++ (LoadedChunk <$> loaded)
                ++ (UnloadedChunk <$> unloaded))%list
           ∧ (chunkKey x z ∈ unloaded ↔ d > rd + 1).
Proof.
  intros Hr Hres. cbv zeta.
  pose proof (reachable_invariant _ _ Hr) as Hinv.
  destruct Hinv as [Hv Hc Hnd Hk [Hin Hids]].
  destruct (JSMap.get (chunkKey x z) (chunks w)) as [c|] eqn:Hg.
  2:{ apply JSMap_get_None in Hg. by rewrite Hc in Hg. }
  exists c. split; [done|]. split.
  { apply JSMap_get_elem_of in Hg. by destruct (Hin _ Hg). }
  set (px := (playerChunk w).1). set (pz := (playerChunk w).2).
  set (w1 := loadChunksInRange px pz w).
  assert (invariant w1) as [_ Hc1 _ _ [Hin1 Hids1]].
  { apply loadChunksInRange_invariant. by split. }
  assert (JSMap.get (chunkKey x z) (chunks w1) = Some c) as Hg1
    by by apply loadChunksInRange_get.
  assert (chunkKey x z ∈ chunksToUnload px pz w1
          ↔ chebyshev x z px pz > renderDistance (config w) + 1) as HL.
  { rewrite elem_of_chunksToUnload, isDistant_chunkKey.
    unfold w1. rewrite loadChunksInRange_config, bool_decide_eq_true.
    rewrite elem_of_loadChunksInRange. naive_solver. }
  rewrite resident_updateChunkLoading, updateChunkLoading_eq.
  fold px pz w1. unfold unloadDistantChunks. split_and!.
  3:{ destruct (loadChunksInRange_console groundPositions px pz w)
        as [ks Hks].
      exists ks, (chunksToUnload px pz w1). split; [|done].
      rewrite unload_fold_console. fold w1 in Hks.
      by rewrite Hks, <- app_assoc. }
  - intros Hd. split_and!.
    + lia.
    + rewrite unload_fold_get. by rewrite decide_True by by apply HL.
    + rewrite unload_fold_meshes. intros [_ Hno].
      by apply (Hno (chunkKey x z) c); [apply HL|..].
  - intros Hd. split_and!.
    + by right.
    + rewrite unload_fold_get. rewrite decide_False; [done|].
      rewrite HL. lia.
    + rewrite unload_fold_meshes. apply JSMap_get_elem_of in Hg1 as He1.
      split; [by destruct (Hin1 _ He1)|].
      intros k c' Hk' Hg' Heq. apply JSMap_get_elem_of in Hg'.
      assert ((k, c') = (chunkKey x z, c)) as [= -> ->].
      { by apply (NoDup_fmap_eq (λ e, uniqueId (mesh e.2)) (chunks w1)). }
      apply HL in Hk'. lia.
Qed.

(** C5.  The player at the world origin, [chunkSize = 100],
    [renderDistance = 1], nothing loaded: the first tick loads the nine
    cells of [{-1,0,1} × {-1,0,1}], creating one mesh and logging one load
    for each, and unloads none. *)
Theorem initial_load sc envs mc dl lod :
  let w := newWorld sc (scenarioConfig mc dl lod) envs in
  let w' := updateChunkLoading w in
  let keys := (λ c, chunkKey c.1 c.2) <$> nineCells in
  playerChunk w = (0, 0)
  ∧ loadedChunks w' = keys
  ∧ JSMap.keys (chunks w') = keys
  ∧ console w' = LoadedChunk <$> keys
  ∧ meshes (scene w') = (meshes sc ++ seq (nextUniqueId sc) 9)%list
  ∧ ∀ x z, resident w' x z ↔ (x, z) ∈ nineCells.
Proof.
  cbv zeta. set (w := newWorld sc (scenarioConfig mc dl lod) envs).
  assert (playerChunk w = (0, 0)) as Hp.
  { apply (playerChunk_at Vector3_Zero (scenarioConfig mc dl lod));
      [done..| |]; simpl; lra. }
  destruct (first_tick w) as (Hl & Hcon & Hm); [done|].
  rewrite Hp in Hl, Hcon, Hm. cbn [fst snd] in *.
  change (scan 0 0 (renderDistance (config w))) with nineCells in *.
  split_and!; try done.
  - rewrite <- Hl. apply updateChunkLoading_consistent. done.
  - intros x z. unfold resident. rewrite Hl, list_elem_of_fmap. split.
    + intros ([x' z'] & [-> ->]%chunkKey_inj & H). done.
    + intros H. by exists (x, z).
Qed.

(** C6.  A second tick with the player where it was changes nothing: no
    chunk is loaded, none is unloaded, the scene and the console stay as
    the first tick left them. *)
Theorem tick_idempotent w :
  validConfig (config w) →
  updateChunkLoading (updateChunkLoading w) = updateChunkLoading w.
Proof.
  intros _. set (w' := updateChunkLoading w).
  rewrite (updateChunkLoading_eq _ w').
  unfold w' at 1 2 3 4. rewrite updateChunkLoading_playerChunk. fold w'.
  rewrite loadChunksInRange_fixed.
  - apply unloadDistantChunks_fixed. intros k Hk.
    unfold w' in *. apply elem_of_updateChunkLoading in Hk as [_ Hk].
    by rewrite updateChunkLoading_config.
  - intros x z Hd. unfold w' in *. apply resident_updateChunkLoading.
    left. by rewrite updateChunkLoading_config in Hd.
Qed.

(** C7.  A tick does not read [maxChunks], [enableDynamicLoading] or
    [enableLOD]: from states that differ in those fields only it yields
    states that differ in those fields only, with the same loaded keys.
    The loaded chunks are not capped: with a render distance [rd >= 0] at
    least [(2 rd + 1)^2] are loaded after a tick, whatever [maxChunks] is.
    Every chunk is built with 50 subdivisions, whatever [enableLOD] is. *)
Theorem tick_ignores_flags w mc dl lod :
  validConfig (config w) →
  let w2 := withFlags mc dl lod w in
  let rd := renderDistance (config w) in
  updateChunkLoading w2 = withFlags mc dl lod (updateChunkLoading w)
  ∧ loadedChunks (updateChunkLoading w2) = loadedChunks (updateChunkLoading w)
  ∧ JSMap.keys (chunks (updateChunkLoading w2))
    = JSMap.keys (chunks (updateChunkLoading w))
  ∧ (0 ≤ rd →
     (Z.to_nat ((2 * rd + 1) * (2 * rd + 1))
      ≤ length (loadedChunks (updateChunkLoading w2)))%nat)
  ∧ ∀ x z sc,
      ∃ sc1 vs,
        vs = (applyHeightMap_loop (chunkSize (config w)) x z
                (groundPositions (chunkSize (config w))
                                 (chunkSize (config w)) 50) sc1).1
        ∧ verticesData (mesh (generateChunk (config w2) x z sc).1) = Some vs
        ∧ length vs
          = length (groundPositions (chunkSize (config w))
                                    (chunkSize (config w)) 50).
Proof.
  intros _. cbv zeta.
  assert (updateChunkLoading (withFlags mc dl lod w)
          = withFlags mc dl lod (updateChunkLoading w)) as E.
  { rewrite !updateChunkLoading_eq.
    change (playerChunk (withFlags mc dl lod w)) with (playerChunk w).
    by rewrite loadChunksInRange_withFlags, unloadDistantChunks_withFlags. }
  rewrite E. split_and!; try done.
  - intros Hrd. cbn [withFlags loadedChunks].
    rewrite <- (length_scan (playerChunk w).1 (playerChunk w).2) by done.
    rewrite <- (length_fmap (λ c, chunkKey c.1 c.2)).
    apply submseteq_length, NoDup_submseteq; [apply NoDup_scan_keys|].
    intros k ([x z] & -> & Hxz%elem_of_scan)%list_elem_of_fmap.
    apply resident_updateChunkLoading. by left.
  - intros x z sc.
    destruct (generateChunk_resolution groundPositions
                (config (withFlags mc dl lod w)) x z sc) as (sc1 & vs & ? & ? & ?).
    by exists sc1, vs.
Qed.

(** C8.  [updatePlayerPosition] stores its argument as the player position
    and changes nothing else: not the chunk map, not the loaded set, not
    the scene, the configuration, the environments or the console.  It is
    a total function: there is no input it fails on. *)
Theorem updatePlayerPosition_frame w (position : Vector3) :
  let w' := updatePlayerPosition position w in
  playerPosition w' = position
  ∧ chunks w' = chunks w
  ∧ loadedChunks w' = loadedChunks w
  ∧ scene w' = scene w
  ∧ config w' = config w
  ∧ environments w' = environments w
  ∧ console w' = console w.
Proof. by split_and!. Qed.

(** C9.  In a reachable state no two entries of the chunk map are for the
    same pair of chunk indices; the keys of the map, and the members of the
    loaded set, are pairwise distinct, and each is the key of a pair of
    indices. *)
Theorem cells_unique w :
  reachable w →
  uniqueCells w
  ∧ NoDup (JSMap.keys (chunks w))
  ∧ NoDup (loadedChunks w)
  ∧ canonicalKeys w.
Proof.
  intros Hinv%reachable_invariant. split; [by apply invariant_uniqueCells|].
  destruct Hinv as [_ Hc Hnd Hk _]. by rewrite Hc.
Qed.

(** C10.  In a reachable state the keys of the chunk map are the members
    of the loaded set, in the same order, and this still holds after
    [loadChunk], [unloadDistantChunks], [updateChunkLoading] and
    [updatePlayerPosition]. *)
Theorem residency_structures_agree w :
  reachable w →
  consistent w
  ∧ (∀ x z, consistent (loadChunk x z w))
  ∧ (∀ px pz, consistent (unloadDistantChunks px pz w))
  ∧ consistent (updateChunkLoading w)
  ∧ ∀ position, consistent (updatePlayerPosition position w).
Proof.
  intros [_ Hc _ _ _]%reachable_invariant. split_and!.
  - done.
  - intros x z. by apply loadChunk_consistent.
  - intros px pz. by apply unloadDistantChunks_consistent.
  - by apply updateChunkLoading_consistent.
  - done.
Qed.



End Claims.


(** * The scenarios *)

Section Scenarios.

Example scan_origin : scan 0 0 1 = nineCells.
Proof. reflexivity. Qed.

Example nineCells_keys :
  (λ c, chunkKey c.1 c.2) <$> nineCells
  = ["-1,-1"; "-1,0"; "-1,1"; "0,-1"; "0,0"; "0,1"; "1,-1"; "1,0"; "1,1"].
Proof. reflexivity. Qed.

Example isDistant_example :
  isDistant (scenarioConfig 25 true true) 1 0 "-2,0" = true
  ∧ isDistant (scenarioConfig 25 true true) 1 0 "-1,0" = false.
Proof. split; reflexivity. Qed.

Lemma scenarioConfig_valid mc dl lod : validConfig (scenarioConfig mc dl lod).
Proof. unfold validConfig. simpl. lra. Qed.

Lemma walkStart_playerChunk : playerChunk walkStart = (0, 0).
Proof.
  apply (playerChunk_at Vector3_Zero (scenarioConfig 25 true true));
    [done..| |]; simpl; lra.
Qed.

Lemma walkLoaded_resident x z :
  chebyshev x z 0 0 ≤ 1 → resident walkLoaded x z.
Proof.
  intros H. apply resident_updateChunkLoading. left.
  by rewrite walkStart_playerChunk.
Qed.

Lemma walkMoved_playerChunk : playerChunk walkMoved = (1, 0).
Proof.
  apply (playerChunk_at (mkVector3 100 0 0) (scenarioConfig 25 true true)).
  - done.
  - unfold walkMoved, walkLoaded. cbn [updatePlayerPosition config].
    by rewrite updateChunkLoading_config.
  - simpl. lra.
  - simpl. lra.
Qed.

Lemma walkMoved_config : config walkMoved = scenarioConfig 25 true true.
Proof.
  unfold walkMoved, walkLoaded. cbn [updatePlayerPosition config].
  by rewrite updateChunkLoading_config.
Qed.

Lemma walkMoved_reachable : reachable cornersOnly walkMoved.
Proof.
  apply reachable_move, reachable_tick, reachable_new, scenarioConfig_valid.
Qed.

Lemma walkEnd_keeps_far_column : resident walkEnd (-1) 0.
Proof.
  apply resident_updateChunkLoading. right.
  rewrite walkMoved_playerChunk, walkMoved_config. split; [|done].
  by apply walkLoaded_resident.
Qed.

(** C1, as stated, fails.  After the walk the player is in cell [(1, 0)]
    with [renderDistance = 1], and the cell [(-1, 0)], at distance 2, is
    still resident. *)
Lemma residency_square_counterexample :
  ¬ (∀ x z,
       resident walkEnd x z ↔
       chebyshev x z (playerChunk walkEnd).1 (playerChunk walkEnd).2
         ≤ renderDistance (config walkEnd)).
Proof.
  intros H. pose proof (proj1 (H (-1) 0) walkEnd_keeps_far_column) as Hd.
  unfold walkEnd in Hd.
  rewrite updateChunkLoading_playerChunk, updateChunkLoading_config in Hd.
  rewrite walkMoved_playerChunk, walkMoved_config in Hd.
  vm_compute in Hd. by apply Hd.
Qed.

Lemma residency_after_tick_witness :
  validConfig (config walkMoved)
  ∧ (resident walkEnd (-1) 0 ↔
     chebyshev (-1) 0 (playerChunk walkEnd).1 (playerChunk walkEnd).2
       ≤ renderDistance (config walkEnd)
     ∨ (chebyshev (-1) 0 (playerChunk walkEnd).1 (playerChunk walkEnd).2
        = renderDistance (config walkEnd) + 1
        ∧ resident walkMoved (-1) 0)).
Proof.
  assert (validConfig (config walkMoved)) as Hv.
  { rewrite walkMoved_config. apply scenarioConfig_valid. }
  split; [exact Hv|].
  exact (residency_after_tick cornersOnly walkMoved (-1) 0 Hv).
Defined.

Lemma unload_iff_beyond_hysteresis_witness :
  reachable cornersOnly walkMoved
  ∧ resident walkMoved (-1) 0
  ∧ ∃ c, JSMap.get (chunkKey (-1) 0) (chunks walkMoved) = Some c
         ∧ resident walkEnd (-1) 0
         ∧ JSMap.get (chunkKey (-1) 0) (chunks walkEnd) = Some c
         ∧ uniqueId (mesh c) ∈ meshes (scene walkEnd).
Proof.
  assert (resident walkMoved (-1) 0) as Hres.
  { by apply (walkLoaded_resident (-1) 0). }
  split; [exact walkMoved_reachable|]. split; [exact Hres|].
  destruct (unload_iff_beyond_hysteresis cornersOnly walkMoved (-1) 0
              walkMoved_reachable Hres) as (c & Hg & _ & _ & Hnear & _).
  exists c. split; [exact Hg|]. apply Hnear.
  rewrite walkMoved_playerChunk, walkMoved_config. by vm_compute.
Defined.

Lemma tick_idempotent_witness :
  validConfig (config walkMoved)
  ∧ updateChunkLoading cornersOnly walkEnd = walkEnd.
Proof.
  assert (validConfig (config walkMoved)) as Hv.
  { rewrite walkMoved_config. apply scenarioConfig_valid. }
  split; [exact Hv|]. exact (tick_idempotent cornersOnly walkMoved Hv).
Defined.

Lemma tick_ignores_flags_witness :
  validConfig (config walkMoved)
  ∧ updateChunkLoading cornersOnly (withFlags 0 false false walkMoved)
    = withFlags 0 false false walkEnd
  ∧ (9 ≤ length (loadedChunks
                   (updateChunkLoading cornersOnly
                      (withFlags 0 false false walkMoved))))%nat.
Proof.
  assert (validConfig (config walkMoved)) as Hv.
  { rewrite walkMoved_config. apply scenarioConfig_valid. }
  split; [exact Hv|].
  destruct (tick_ignores_flags cornersOnly walkMoved 0 false false Hv)
    as (E & _ & _ & Hlen & _).
  split; [exact E|].
  rewrite walkMoved_config in Hlen. apply Hlen. by vm_compute.
Defined.

Lemma cells_unique_witness :
  reachable cornersOnly walkMoved ∧ uniqueCells walkMoved.
Proof.
  split; [exact walkMoved_reachable|].
  exact (proj1 (cells_unique cornersOnly walkMoved walkMoved_reachable)).
Defined.

Lemma residency_structures_agree_witness :
  reachable cornersOnly walkMoved
  ∧ JSMap.keys (chunks walkMoved) = loadedChunks walkMoved
  ∧ JSMap.keys (chunks walkEnd) = loadedChunks walkEnd.
Proof.
  split; [exact walkMoved_reachable|].
  destruct (residency_structures_agree cornersOnly walkMoved
              walkMoved_reachable) as (H1 & _ & _ & H2 & _).
  split; [exact H1|exact H2].
Defined.








End Scenarios.

(** * Further properties of the terrain generator *)

Section TerrainFacts.
#[local] Open Scope R_scope.

Lemma octave_bound (s c amp : R) :
  -1 <= s <= 1 → -1 <= c <= 1 → 0 <= amp → - amp <= s * c * amp <= amp.
Proof.
  intros Hs Hc Ha.
  assert (-1 <= s * c <= 1) as Hsc.
  { pose proof (Rmult_le_pos (1 + s) (1 + c)).
    pose proof (Rmult_le_pos (1 - s) (1 - c)).
    pose proof (Rmult_le_pos (1 + s) (1 - c)).
    pose proof (Rmult_le_pos (1 - s) (1 + c)). lra. }
  split; nra.
Qed.

Lemma heightSpec_bounded (x z : R) : -35 <= heightSpec x z <= 35.
Proof.
  unfold heightSpec. cbv zeta.
  set (nx := Rrem (x / 100) 1). set (nz := Rrem (z / 100) 1).
  pose proof (octave_bound _ _ 20 (SIN_bound (nx * 10)) (COS_bound (nz * 10))).
  pose proof (octave_bound _ _ 10 (SIN_bound (nx * 20)) (COS_bound (nz * 20))).
  pose proof (octave_bound _ _ 5 (SIN_bound (nx * 40)) (COS_bound (nz * 40))).
  lra.
Qed.

Lemma applyHeightMap_loop_bounded (cs : R) (cx cz : Z) (vs : list R)
    (sc : Scene) :
  Forall (λ y, -35 <= y <= 35)
         (heightsOf (applyHeightMap_loop cs cx cz vs sc).1).
Proof.
  revert sc. induction vs as [|a|a b|a b c rest IH] using list_triple_ind;
    intros sc; try (by constructor).
  rewrite applyHeightMap_loop_triple. cbv zeta. cbn [fst heightsOf].
  constructor; [apply heightSpec_bounded|apply IH].
Qed.

(** X12.  Whatever vertex buffer the engine builds for a ground, every
    height that [generateChunk] writes into a chunk's buffer is between -35
    and 35, the sum of the three amplitudes. *)
Theorem chunk_heights_bounded (groundPositions : R → R → Z → list R)
    (cfg : WorldConfig) (x z : Z) (sc : Scene) :
  ∃ vs,
    verticesData (mesh (generateChunk groundPositions cfg x z sc).1) = Some vs
    ∧ Forall (λ y, -35 <= y <= 35) (heightsOf vs).
Proof.
  rewrite generateChunk_eq. cbv zeta. cbn [mesh verticesData fst].
  eexists. split; [done|]. apply applyHeightMap_loop_bounded.
Qed.

(** X13.  Because [%] truncates, the height [getHeight] returns is odd in
    [x] and even in [z]: mirroring a point through the plane [x = 0]
    negates its height, mirroring it through [z = 0] keeps it.  On every
    line [x = 100 k], [k] an integer, the height is zero. *)
Theorem getHeight_mirror (x z : R) (k : Z) (sc sc' : Scene) :
  (getHeight (- x) z sc').1 = - (getHeight x z sc).1
  ∧ (getHeight x (- z) sc').1 = (getHeight x z sc).1
  ∧ (getHeight (100 * IZR k) z sc).1 = 0.
Proof.
  rewrite !getHeight_value. unfold heightSpec. cbv zeta.
  replace (- x / 100) with (- (x / 100)) by lra.
  replace (- z / 100) with (- (z / 100)) by lra.
  rewrite !Rrem_1_opp. split_and!.
  - rewrite !Ropp_mult_distr_l_reverse, !sin_neg. lra.
  - by rewrite !Ropp_mult_distr_l_reverse, !cos_neg.
  - replace (100 * IZR k / 100) with (IZR k) by lra.
    rewrite Rrem_1_IZR, !Rmult_0_l, sin_0. lra.
Qed.

(** X14.  On non-negative coordinates the height [getHeight] returns
    repeats with period 100 in [x] and in [z]. *)
Theorem getHeight_period (x z : R) (sc sc' : Scene) :
  0 <= x → 0 <= z →
  (getHeight (x + 100) z sc').1 = (getHeight x z sc).1
  ∧ (getHeight x (z + 100) sc').1 = (getHeight x z sc).1.
Proof.
  intros Hx Hz. rewrite !getHeight_value. unfold heightSpec. cbv zeta.
  replace ((x + 100) / 100) with (x / 100 + 1) by lra.
  replace ((z + 100) / 100) with (z / 100 + 1) by lra.
  rewrite !Rrem_1_succ; [done|lra|lra].
Qed.

Lemma sqrt_lt_100 (t : R) : 0 <= t → (sqrt t < 100 ↔ t < 10000).
Proof.
  intros Ht. replace 100 with (sqrt 10000) at 1.
  2:{ replace 10000 with (100 * 100) by lra. apply sqrt_square. lra. }
  split.
  - apply sqrt_lt_0_alt.
  - intros H. apply sqrt_lt_1_alt. lra.
Qed.

Lemma IZR_sq_sum (x z : Z) :
  (x ≠ 0 ∨ z ≠ 0)%Z → 1 <= IZR x * IZR x + IZR z * IZR z.
Proof.
  intros H. rewrite <- !mult_IZR, <- plus_IZR. apply IZR_le. nia.
Qed.

(** X15.  With a chunk size of 100 or more, as in the game, the chunk that
    [generateChunk] makes for the cell [(0, 0)] is the only one whose biome
    is village. *)
Theorem village_only_at_origin (groundPositions : R → R → Z → list R)
    (cfg : WorldConfig) (x z : Z) (sc : Scene) :
  100 <= chunkSize cfg →
  biome (generateChunk groundPositions cfg x z sc).1 = village
  ↔ x = 0%Z ∧ z = 0%Z.
Proof.
  intros Hcs. rewrite generateChunk_biome. set (cs := chunkSize cfg) in *.
  split.
  - intros Hb. destruct (decide (x = 0%Z ∧ z = 0%Z)) as [|Hn]; [done|].
    exfalso. assert (x ≠ 0 ∨ z ≠ 0)%Z as Hxz by lia.
    apply IZR_sq_sum in Hxz. unfold getBiome in Hb. cbv zeta in Hb.
    destruct (Rlt_dec _ 100) as [Hlt|]; [|by repeat destruct (Rlt_dec _ _)].
    apply sqrt_lt_100 in Hlt; nra.
  - intros [-> ->]. unfold getBiome. cbv zeta.
    replace (0 * cs * (0 * cs) + 0 * cs * (0 * cs)) with 0 by lra.
    rewrite sqrt_0. destruct (Rlt_dec 0 100); [done|lra].
Qed.

End TerrainFacts.

(** * What chunk generation allocates, and what unloading gives back *)

Section ResourceFacts.

Variable groundPositions : R → R → Z → list R.

#[local] Abbreviation generateChunk := (generateChunk groundPositions).
#[local] Abbreviation loadChunk := (loadChunk groundPositions).
#[local] Abbreviation loadChunksInRange := (loadChunksInRange groundPositions).
#[local] Abbreviation updateChunkLoading := (updateChunkLoading groundPositions).
#[local] Abbreviation reaches := (reaches groundPositions).

Implicit Types (w : AdvancedWorldSystem) (x z px pz : Z) (k : string).

Lemma applyHeightMap_loop_textures (cs : R) (cx cz : Z) (vs : list R)
    (sc : Scene) :
  proceduralTextures (applyHeightMap_loop cs cx cz vs sc).2
  = (proceduralTextures sc
     ++ replicate (length (heightsOf vs)) "noise"%string)%list.
Proof.
  revert sc. induction vs as [|a|a b|a b c rest IH] using list_triple_ind;
    intros sc; try (symmetry; apply app_nil_r).
  rewrite applyHeightMap_loop_triple. cbv zeta. cbn [snd heightsOf length].
  rewrite IH, getHeight_scene. cbn [proceduralTextures replicate].
  by rewrite <- app_assoc.
Qed.

Lemma applyHeightMap_loop_value (cs : R) (cx cz : Z) (vs : list R)
    (sc sc' : Scene) :
  (applyHeightMap_loop cs cx cz vs sc).1
  = (applyHeightMap_loop cs cx cz vs sc').1.
Proof.
  revert sc sc'.
  induction vs as [|a|a b|a b c rest IH] using list_triple_ind;
    intros sc sc'; try done.
  rewrite !applyHeightMap_loop_triple. cbv zeta. cbn [fst].
  do 3 f_equal. apply IH.
Qed.

Lemma generateChunk_textures_materials (cfg : WorldConfig) x z (sc : Scene) :
  let r := generateChunk cfg x z sc in
  proceduralTextures r.2
  = (proceduralTextures sc
     ++ replicate
          (length (heightsOf
                     (groundPositions (chunkSize cfg) (chunkSize cfg) 50)))
          "noise"%string)%list
  ∧ materials r.2
    = (materials sc
       ++ [("biome_" ++ Biome_toString (biome r.1) ++ "_mat")%string])%list.
Proof.
  rewrite generateChunk_eq. cbv zeta.
  unfold applyBiomeMaterials, newPBRMaterial, bind, ret.
  cbn [fst snd proceduralTextures materials biome].
  rewrite applyHeightMap_loop_textures. cbn [proceduralTextures].
  split; [done|].
  match goal with |- context [applyHeightMap_loop ?a ?b ?c ?d ?e] =>
    destruct (applyHeightMap_loop_scene a b c d e) as (_ & _ & ->) end.
  done.
Qed.

(** X11.  Loading a cell that is not loaded puts into the scene one ground
    mesh named after the key, one material named after the biome, and one
    noise texture for every vertex of the ground, and stores the chunk
    under the key. *)
Theorem loadChunk_allocations x z w :
  chunkKey x z ∉ loadedChunks w →
  let w' := loadChunk x z w in
  let n :=
    length (heightsOf (groundPositions (chunkSize (config w))
                                       (chunkSize (config w)) 50)) in
  ∃ c, JSMap.get (chunkKey x z) (chunks w') = Some c
       ∧ mesh_name (mesh c) = ("chunk_" ++ chunkKey x z)%string
       ∧ uniqueId (mesh c) = nextUniqueId (scene w)
       ∧ nextUniqueId (scene w') = S (nextUniqueId (scene w))
       ∧ meshes (scene w') = (meshes (scene w) ++ [uniqueId (mesh c)])%list
       ∧ materials (scene w')
         = (materials (scene w)
            ++ [("biome_" ++ Biome_toString (biome c) ++ "_mat")%string])%list
       ∧ proceduralTextures (scene w')
         = (proceduralTextures (scene w) ++ replicate n "noise"%string)%list
       ∧ console w' = (console w ++ [LoadedChunk (chunkKey x z)])%list.
Proof.
  intros H%JSSet_has_false. cbv zeta.
  rewrite loadChunk_eq, H. cbn [chunks scene console].
  exists (generateChunk (config w) x z (scene w)).1.
  rewrite JSMap_get_set, decide_True by done.
  destruct (generateChunk_scene groundPositions (config w) x z (scene w))
    as [-> ->].
  destruct (generateChunk_textures_materials (config w) x z (scene w))
    as [-> ->].
  rewrite generateChunk_uniqueId. split_and!; try done.
  by rewrite generateChunk_eq.
Qed.

(** X8.  A chunk generated again for the same cell, in whatever state of
    the scene, differs from the first one in the id of its mesh only: the
    biome, the position, the name, the heights, the material and the
    impostor are the same. *)
Theorem regeneration_is_deterministic (cfg : WorldConfig) x z
    (sc sc' : Scene) :
  let c := (generateChunk cfg x z sc).1 in
  let c' := (generateChunk cfg x z sc').1 in
  biome c' = biome c
  ∧ position c' = position c
  ∧ mesh_name (mesh c') = mesh_name (mesh c)
  ∧ mesh_position (mesh c') = mesh_position (mesh c)
  ∧ verticesData (mesh c') = verticesData (mesh c)
  ∧ material (mesh c') = material (mesh c)
  ∧ physicsImpostor (mesh c') = physicsImpostor (mesh c)
  ∧ (uniqueId (mesh c') = uniqueId (mesh c)
     ↔ nextUniqueId sc' = nextUniqueId sc).
Proof.
  cbv zeta. rewrite !generateChunk_eq. cbv zeta.
  unfold applyBiomeMaterials, newPBRMaterial, bind, ret.
  cbn [fst snd biome position mesh mesh_name mesh_position verticesData
       material physicsImpostor uniqueId].
  split_and!; try done.
  f_equal. apply applyHeightMap_loop_value.
Qed.

End ResourceFacts.

(** * Further properties of the streaming loop *)

Lemma chebyshev_triangle (x z ax az bx bz : Z) :
  chebyshev x z bx bz ≤ chebyshev x z ax az + chebyshev ax az bx bz.
Proof. unfold chebyshev. lia. Qed.

Lemma chebyshev_nonneg (x z px pz : Z) : 0 ≤ chebyshev x z px pz.
Proof. unfold chebyshev. lia. Qed.

Lemma foldl_delete_filter (l s : list string) :
  foldl (λ s k, JSSet.delete k s) s l = filter (λ k, k ∉ l) s.
Proof.
  revert s. induction l as [|a l IH]; intros s.
  - simpl. induction s as [|b s IHs]; [done|].
    rewrite filter_cons_True by apply not_elem_of_nil. by rewrite <- IHs.
  - cbn [foldl]. rewrite IH. unfold JSSet.delete.
    induction s as [|b s IHs]; [done|].
    destruct (decide (b = a)) as [->|Hne].
    + rewrite (filter_cons_False (λ k', k' ≠ a)) by naive_solver.
      rewrite (filter_cons_False (λ k, k ∉ a :: l)); [done|].
      intros H. apply H. left.
    + rewrite (filter_cons_True (λ k', k' ≠ a)) by done.
      destruct (decide (b ∈ l)) as [Hb|Hb].
      * rewrite !filter_cons_False; [done| |naive_solver].
        intros H. apply H. by right.
      * rewrite !filter_cons_True; [by rewrite IHs| |done].
        by intros [?|?]%elem_of_cons.
Qed.

Lemma JSMap_delete_absent {V} (k : string) (m : list (string * V)) :
  k ∉ JSMap.keys m → JSMap.delete k m = m.
Proof.
  unfold JSMap.delete. induction m as [|[k' v] m IH]; [done|].
  rewrite JSMap_keys_cons. intros [Hne Hk]%not_elem_of_cons.
  rewrite filter_cons_True by (simpl; congruence). by rewrite IH.
Qed.

Lemma JSMap_elem_of_get {V} (k : string) (v : V) (m : list (string * V)) :
  NoDup (JSMap.keys m) → (k, v) ∈ m → JSMap.get k m = Some v.
Proof.
  induction m as [|[k' v'] m IH]; [by intros _ H; inversion H|].
  rewrite JSMap_keys_cons. intros [Hk Hnd]%NoDup_cons He. simpl.
  apply elem_of_cons in He as [[= <- <-]|He].
  - by rewrite decide_True.
  - rewrite decide_False; [by apply IH|].
    intros ->. apply Hk. unfold JSMap.keys.
    apply list_elem_of_fmap. by exists (k, v).
Qed.

Section GridFacts.

Variable groundPositions : R → R → Z → list R.

#[local] Abbreviation generateChunk := (generateChunk groundPositions).
#[local] Abbreviation loadChunk := (loadChunk groundPositions).
#[local] Abbreviation loadChunksInRange := (loadChunksInRange groundPositions).
#[local] Abbreviation updateChunkLoading := (updateChunkLoading groundPositions).
#[local] Abbreviation reachable := (reachable groundPositions).
#[local] Abbreviation reaches := (reaches groundPositions).

Implicit Types (w : AdvancedWorldSystem) (x z px pz : Z) (k : string).

(** A tick that finds the square loaded and nothing distant does
    nothing. *)
Lemma tick_fixed w :
  (∀ x z, chebyshev x z (playerChunk w).1 (playerChunk w).2
            ≤ renderDistance (config w) → resident w x z) →
  (∀ k, k ∈ loadedChunks w →
        isDistant (config w) (playerChunk w).1 (playerChunk w).2 k = false) →
  updateChunkLoading w = w.
Proof.
  intros Hin Hout. rewrite updateChunkLoading_eq.
  rewrite loadChunksInRange_fixed by done.
  by apply unloadDistantChunks_fixed.
Qed.

Lemma loaded_at_least w :
  0 ≤ renderDistance (config w) →
  (Z.to_nat ((2 * renderDistance (config w) + 1)
             * (2 * renderDistance (config w) + 1))
   ≤ length (loadedChunks (updateChunkLoading w)))%nat.
Proof.
  intros Hrd.
  rewrite <- (length_scan (playerChunk w).1 (playerChunk w).2) by done.
  rewrite <- (length_fmap (λ c, chunkKey c.1 c.2)).
  apply submseteq_length, NoDup_submseteq; [apply NoDup_scan_keys|].
  intros k ([x z] & -> & Hxz%elem_of_scan)%list_elem_of_fmap.
  apply resident_updateChunkLoading. by left.
Qed.

Lemma reaches_config w w' : reaches w w' → config w' = config w.
Proof.
  induction 1 as [|w' _ IH|w' p _ IH]; [done| |done].
  by rewrite updateChunkLoading_config.
Qed.

Lemma reaches_environments w w' :
  reaches w w' → environments w' = environments w.
Proof.
  induction 1 as [|w' _ IH|w' p _ IH]; [done| |done].
  by rewrite updateChunkLoading_environments.
Qed.

Lemma reaches_reachable w w' : reachable w → reaches w w' → reachable w'.
Proof.
  intros Hw. induction 1 as [|w' _ IH|w' p _ IH]; [done|..].
  - by apply reachable_tick.
  - by apply reachable_move.
Qed.

(** X1.  A key is read back as the pair of indices it was written from,
    so different cells have different keys, and the distance the unloading
    pass computes from a key is the Chebyshev distance of its cell. *)
Theorem chunkKey_roundtrip x z px pz :
  parseKey (chunkKey x z) = (Some x, Some z)
  ∧ (∀ x' z', chunkKey x z = chunkKey x' z' → x = x' ∧ z = z')
  ∧ keyDistance px pz (chunkKey x z) = Some (chebyshev x z px pz).
Proof.
  split_and!.
  - apply parseKey_chunkKey.
  - intros x' z'. apply chunkKey_inj.
  - apply keyDistance_chunkKey.
Qed.

(** X3.  After a tick, a move that keeps the player inside the same cell
    gives the next tick nothing to do: it loads nothing, unloads nothing
    and leaves the scene and the console as they are. *)
Theorem tick_after_move_within_cell w (position : Vector3) :
  validConfig (config w) →
  cellOf (config w) position = playerChunk w →
  updateChunkLoading (updatePlayerPosition position (updateChunkLoading w))
  = updatePlayerPosition position (updateChunkLoading w).
Proof.
  intros _ Hcell.
  set (w2 := updatePlayerPosition position (updateChunkLoading w)).
  assert (config w2 = config w) as Hc by apply updateChunkLoading_config.
  assert (playerChunk w2 = playerChunk w) as Hp.
  { rewrite <- Hcell. unfold playerChunk, cellOf. by rewrite Hc. }
  apply tick_fixed; rewrite Hp, Hc.
  - intros x z Hd. apply resident_updateChunkLoading. by left.
  - intros k Hk. by apply elem_of_updateChunkLoading in Hk as [_ Hk].
Qed.

(** X4.  The hysteresis prevents thrashing.  Let the player be ticked in a
    cell A, then in a neighbouring cell B (at Chebyshev distance at most 1).
    Coming back to A, the tick loads nothing and unloads nothing. *)
Theorem no_thrash_between_neighbours w (pA pB : Vector3) :
  validConfig (config w) →
  chebyshev (cellOf (config w) pA).1 (cellOf (config w) pA).2
            (cellOf (config w) pB).1 (cellOf (config w) pB).2 ≤ 1 →
  let wA := updateChunkLoading (updatePlayerPosition pA w) in
  let wB := updateChunkLoading (updatePlayerPosition pB wA) in
  updateChunkLoading (updatePlayerPosition pA wB) = updatePlayerPosition pA wB.
Proof.
  intros _ Hadj. cbv zeta.
  set (wA := updateChunkLoading (updatePlayerPosition pA w)).
  set (wB := updateChunkLoading (updatePlayerPosition pB wA)).
  assert (config wA = config w) as HcA.
  { unfold wA. by rewrite updateChunkLoading_config. }
  assert (config wB = config w) as HcB.
  { unfold wB. by rewrite updateChunkLoading_config. }
  set (A := cellOf (config w) pA) in *. set (B := cellOf (config w) pB) in *.
  assert (playerChunk (updatePlayerPosition pA w) = A) as HpA by done.
  assert (playerChunk (updatePlayerPosition pB wA) = B) as HpB.
  { unfold playerChunk, B, cellOf. cbn [updatePlayerPosition config
      playerPosition]. by rewrite HcA. }
  assert (playerChunk (updatePlayerPosition pA wB) = A) as HpA'.
  { unfold playerChunk, A, cellOf. cbn [updatePlayerPosition config
      playerPosition]. by rewrite HcB. }
  pose proof (chebyshev_triangle) as Htri.
  apply tick_fixed; rewrite HpA'; cbn [updatePlayerPosition config
    loadedChunks]; rewrite HcB.
  - intros x z Hd. unfold resident. cbn [updatePlayerPosition loadedChunks].
    apply resident_updateChunkLoading. right. rewrite HpB.
    cbn [updatePlayerPosition config]. rewrite HcA. split.
    + apply resident_updateChunkLoading. left. by rewrite HpA.
    + specialize (Htri x z A.1 A.2 B.1 B.2). lia.
  - intros k Hk. unfold wB in Hk.
    apply elem_of_updateChunkLoading in Hk as [Hk _]. rewrite HpB in Hk.
    cbn [updatePlayerPosition config loadedChunks] in Hk. rewrite HcA in Hk.
    destruct Hk as [Hk|(x & z & Hd & ->)].
    + unfold wA in Hk. apply elem_of_updateChunkLoading in Hk as [_ Hk].
      by rewrite HpA in Hk.
    + rewrite isDistant_chunkKey. apply bool_decide_eq_false.
      specialize (Htri x z B.1 B.2 A.1 A.2).
      assert (chebyshev B.1 B.2 A.1 A.2 = chebyshev A.1 A.2 B.1 B.2) as E
        by (unfold chebyshev; lia).
      lia.
Qed.

(** X16.  [loadChunk] is idempotent and makes its cell resident, in any
    state.  Where the chunk map and the loaded set agree, the cell has a
    chunk afterwards and no stored chunk is replaced: an entry of the map
    is the same after the call. *)
Theorem loadChunk_idempotent x z w :
  loadChunk x z (loadChunk x z w) = loadChunk x z w
  ∧ resident (loadChunk x z w) x z
  ∧ (consistent w →
     (∃ c, JSMap.get (chunkKey x z) (chunks (loadChunk x z w)) = Some c)
     ∧ ∀ k (c : Chunk),
         JSMap.get k (chunks w) = Some c →
         JSMap.get k (chunks (loadChunk x z w)) = Some c).
Proof.
  assert (resident (loadChunk x z w) x z) as Hr.
  { unfold resident. rewrite loadChunk_loadedChunks, JSSet_elem_of_add.
    by left. }
  split_and!; [by apply loadChunk_present|done|].
  intros Hc. split.
  - destruct (JSMap.get (chunkKey x z) (chunks (loadChunk x z w)))
      as [c|] eqn:Hg; [by exists c|].
    apply JSMap_get_None in Hg.
    rewrite (loadChunk_consistent groundPositions x z w Hc) in Hg. done.
  - intros k c Hg. by apply loadChunk_get.
Qed.

(** X17.  A system constructed with a negative render distance never
    holds a chunk: in every state it reaches the loaded set and the chunk
    map are empty, the scene is the one it was constructed with, nothing
    is logged, and [getChunkAt] answers [undefined] everywhere.  A tick
    loads nothing in any state.  With a render distance below -1 a tick
    unloads all there is, the cell of the player too, from a state that
    holds chunks, which only [loadChunk] itself can have put there. *)
Theorem negative_renderDistance sc cfg envs :
  validConfig cfg → renderDistance cfg < 0 →
  (∀ w, reaches (newWorld sc cfg envs) w →
        loadedChunks w = [] ∧ chunks w = [] ∧ scene w = sc
        ∧ console w = [] ∧ ∀ a b : R, getChunkAt a b w = None)
  ∧ (∀ w k, config w = cfg →
            k ∈ loadedChunks (updateChunkLoading w) → k ∈ loadedChunks w)
  ∧ (renderDistance cfg < -1 →
     ∀ w, invariant w → config w = cfg →
          loadedChunks (updateChunkLoading w) = []
          ∧ chunks (updateChunkLoading w) = []).
Proof.
  intros _ Hrd.
  assert (∀ w, config w = cfg → loadedChunks w = [] →
               updateChunkLoading w = w) as Hfix.
  { intros w Hcfg He. apply tick_fixed.
    - intros x z Hd.
      pose proof (chebyshev_nonneg x z (playerChunk w).1 (playerChunk w).2).
      rewrite Hcfg in Hd. lia.
    - intros k Hk. rewrite He in Hk. by inversion Hk. }
  split_and!.
  - intros w Hw.
    assert (config w = cfg ∧ loadedChunks w = [] ∧ chunks w = []
            ∧ scene w = sc ∧ console w = []) as (Hcfg & Hl & Hc & Hs & Ho).
    { induction Hw as [|w' _ IH|w' p _ IH]; [done| |done].
      destruct IH as (Hcfg & Hl & ?). by rewrite (Hfix w' Hcfg Hl). }
    split_and!; try done.
    intros a b. unfold getChunkAt. cbv zeta. by rewrite Hc.
  - intros w k Hcfg
      [[Hk|(x & z & Hd & _)] _]%elem_of_updateChunkLoading; [done|].
    pose proof (chebyshev_nonneg x z (playerChunk w).1 (playerChunk w).2).
    rewrite Hcfg in Hd. lia.
  - intros Hrd' w Hinv Hcfg.
    assert (loadedChunks (updateChunkLoading w) = []) as He.
    { apply elem_of_nil_inv. intros k Hk.
      assert (invariant (updateChunkLoading w)) as Hinv'.
      { rewrite updateChunkLoading_eq.
        by apply unloadDistantChunks_invariant, loadChunksInRange_invariant. }
      destruct (inv_canonical _ Hinv' k Hk) as (x & z & ->).
      apply elem_of_updateChunkLoading in Hk as [_ Hk].
      rewrite isDistant_chunkKey in Hk. apply bool_decide_eq_false in Hk.
      pose proof (chebyshev_nonneg x z (playerChunk w).1 (playerChunk w).2).
      rewrite Hcfg in Hk. lia. }
    split; [done|].
    pose proof (updateChunkLoading_consistent groundPositions w
                  (inv_consistent _ Hinv)) as Hc.
    unfold consistent, JSMap.keys in Hc. rewrite He in Hc.
    by apply fmap_nil_inv in Hc.
Qed.

(** X2.  After a tick of a reachable state the number of loaded chunks is
    between [(2 rd + 1)^2] and [(2 rd + 3)^2], [rd] the render distance,
    and the chunk map holds as many entries. *)
Theorem loaded_count_bounds w :
  reachable w → 0 ≤ renderDistance (config w) →
  let rd := renderDistance (config w) in
  let n := length (loadedChunks (updateChunkLoading w)) in
  (Z.to_nat ((2 * rd + 1) * (2 * rd + 1)) ≤ n)%nat
  ∧ (n ≤ Z.to_nat ((2 * rd + 3) * (2 * rd + 3)))%nat
  ∧ length (chunks (updateChunkLoading w)) = n.
Proof.
  intros Hr Hrd. cbv zeta.
  apply reachable_tick, reachable_invariant in Hr as [_ Hc Hnd Hk _].
  split_and!.
  - by apply loaded_at_least.
  - replace ((2 * renderDistance (config w) + 3)
             * (2 * renderDistance (config w) + 3))
      with ((2 * (renderDistance (config w) + 1) + 1)
            * (2 * (renderDistance (config w) + 1) + 1)) by lia.
    rewrite <- (length_scan (playerChunk w).1 (playerChunk w).2) by lia.
    rewrite <- (length_fmap (λ c, chunkKey c.1 c.2)).
    apply submseteq_length, NoDup_submseteq; [done|].
    intros k Hin. destruct (Hk k Hin) as (x & z & ->).
    apply resident_updateChunkLoading in Hin.
    apply list_elem_of_fmap. exists (x, z). split; [done|].
    apply elem_of_scan. lia.
  - rewrite <- Hc. unfold JSMap.keys. by rewrite length_fmap.
Qed.

(** X18.  The game constructs the system with [renderDistance = 3] and
    [maxChunks = 25]: in every state the game can reach, a tick leaves at
    least 49 chunks in the map, more than [maxChunks]. *)
Theorem game_config_exceeds_maxChunks sc envs w :
  reaches (newWorld sc gameWorldConfig envs) w →
  (49 ≤ length (chunks (updateChunkLoading w)))%nat
  ∧ (Z.to_nat (maxChunks (config w))
     < length (chunks (updateChunkLoading w)))%nat.
Proof.
  intros Hw. pose proof (reaches_config _ _ Hw) as Hc. cbn in Hc.
  assert (reachable w) as Hr.
  { eapply reaches_reachable; [|exact Hw]. apply reachable_new.
    unfold validConfig, gameWorldConfig. simpl. lra. }
  apply reachable_tick, reachable_invariant in Hr as [_ Hcon _ _ _].
  pose proof (loaded_at_least w) as Hlen. rewrite Hc in Hlen.
  change (renderDistance gameWorldConfig) with 3 in Hlen.
  change (Z.to_nat ((2 * 3 + 1) * (2 * 3 + 1))) with 49%nat in Hlen.
  rewrite <- Hcon in Hlen. unfold JSMap.keys in Hlen.
  rewrite length_fmap in Hlen. rewrite Hc.
  change (Z.to_nat (maxChunks gameWorldConfig)) with 25%nat. lia.
Qed.

(** X19.  Frames never change the configuration or the environments:
    [getEnvironment] answers after any number of ticks and position
    updates what it answered before, and a tick leaves the player position
    alone. *)
Theorem frames_keep_config_and_environments w w' (name : string) :
  reaches w w' →
  config w' = config w
  ∧ getAllEnvironments w' = getAllEnvironments w
  ∧ getEnvironment name w' = getEnvironment name w
  ∧ playerPosition (updateChunkLoading w') = playerPosition w'.
Proof.
  intros Hw. pose proof (reaches_environments _ _ Hw) as He.
  unfold getEnvironment, getAllEnvironments. rewrite He.
  split_and!; try done.
  - by apply reaches_config.
  - apply updateChunkLoading_playerPosition.
Qed.

Lemma filter_all {A} (P : A → Prop) `{!∀ a, Decision (P a)} (l : list A) :
  (∀ a, a ∈ l → P a) → filter P l = l.
Proof.
  induction l as [|a l IH]; intros Hall; [done|].
  rewrite filter_cons_True by (apply Hall; left).
  rewrite IH; [done|]. intros b Hb. apply Hall. by right.
Qed.

Lemma filter_none {A} (P : A → Prop) `{!∀ a, Decision (P a)} (l : list A) :
  (∀ a, a ∈ l → ¬ P a) → filter P l = [].
Proof.
  induction l as [|a l IH]; intros Hall; [done|].
  rewrite filter_cons_False by (apply Hall; left).
  apply IH. intros b Hb. apply Hall. by right.
Qed.

Lemma filter_fmap_equiv {A B} (f : A → B) (P : B → Prop) (Q : A → Prop)
    `{!∀ b, Decision (P b)} `{!∀ a, Decision (Q a)} (l : list A) :
  (∀ a, a ∈ l → P (f a) ↔ Q a) → filter P (f <$> l) = f <$> filter Q l.
Proof.
  induction l as [|a l IH]; intros Hall; [done|]. rewrite fmap_cons.
  assert (filter P (f <$> l) = f <$> filter Q l) as IH'.
  { apply IH. intros b Hb. apply Hall. by right. }
  destruct (decide (Q a)) as [Hq|Hq].
  - rewrite !filter_cons_True; [by rewrite fmap_cons, IH'|done|].
    apply Hall; [left|done].
  - rewrite !filter_cons_False; [done|done|].
    intros Hp. apply Hq, Hall; [left|done].
Qed.

Lemma unloadChunk_scene_resources w k :
  materials (scene (unloadChunk w k)) = materials (scene w)
  ∧ proceduralTextures (scene (unloadChunk w k)) = proceduralTextures (scene w)
  ∧ nextUniqueId (scene (unloadChunk w k)) = nextUniqueId (scene w).
Proof.
  unfold unloadChunk. cbn [scene]. by destruct (JSMap.get k (chunks w)).
Qed.

Lemma sceneGrows_refl (sc : Scene) : sceneGrows sc sc.
Proof. by split_and!. Qed.

Lemma sceneGrows_trans (sc1 sc2 sc3 : Scene) :
  sceneGrows sc1 sc2 → sceneGrows sc2 sc3 → sceneGrows sc1 sc3.
Proof.
  intros (? & ? & ?) (? & ? & ?). split_and!; [by etrans..|lia].
Qed.

Lemma loadChunk_sceneGrows x z w : sceneGrows (scene w) (scene (loadChunk x z w)).
Proof.
  rewrite loadChunk_eq. destruct (JSSet.has _ _); [apply sceneGrows_refl|].
  cbn [scene].
  destruct (generateChunk_scene groundPositions (config w) x z (scene w))
    as [Hn _].
  destruct (generateChunk_textures_materials groundPositions
              (config w) x z (scene w)) as [Ht Hm].
  split_and!.
  - rewrite Hm. by apply prefix_app_r.
  - rewrite Ht. by apply prefix_app_r.
  - rewrite Hn. lia.
Qed.

Lemma updateChunkLoading_sceneGrows w :
  sceneGrows (scene w) (scene (updateChunkLoading w)).
Proof.
  rewrite updateChunkLoading_eq. unfold unloadDistantChunks.
  apply (foldl_preserves (λ w', sceneGrows (scene w) (scene w'))).
  { intros w' k (Hm & Ht & Hn). unfold sceneGrows.
    destruct (unloadChunk_scene_resources w' k) as (-> & -> & ->).
    by split_and!. }
  rewrite loadChunksInRange_fold.
  apply (foldl_preserves (λ w', sceneGrows (scene w) (scene w')));
    [|apply sceneGrows_refl].
  intros w' [x z] H. eapply sceneGrows_trans; [exact H|].
  apply loadChunk_sceneGrows.
Qed.

(** X7.  Nothing that chunk generation puts into the scene besides the
    ground mesh is ever given back: over any number of frames the
    materials and the procedural textures of the scene only grow, and
    unloading chunks leaves both as they are. *)
Theorem scene_resources_never_released w w' px pz :
  reaches w w' →
  sceneGrows (scene w) (scene w')
  ∧ materials (scene (unloadDistantChunks px pz w')) = materials (scene w')
  ∧ proceduralTextures (scene (unloadDistantChunks px pz w'))
    = proceduralTextures (scene w').
Proof.
  intros Hw. split.
  - induction Hw as [|w' _ IH|w' p _ IH]; [apply sceneGrows_refl| |done].
    eapply sceneGrows_trans; [exact IH|]. apply updateChunkLoading_sceneGrows.
  - unfold unloadDistantChunks.
    apply (foldl_preserves
             (λ w'', materials (scene w'') = materials (scene w')
                     ∧ proceduralTextures (scene w'')
                       = proceduralTextures (scene w'))); [|done].
    intros w'' k [<- <-].
    by destruct (unloadChunk_scene_resources w'' k) as (-> & -> & _).
Qed.

Lemma newWorld_accounted sc cfg envs : accounted sc (newWorld sc cfg envs).
Proof.
  unfold accounted, chunkMeshIds. cbn. rewrite app_nil_r.
  split_and!; try done; try apply NoDup_nil_2.
  intros i Hi. by inversion Hi.
Qed.

Lemma loadChunk_accounted sc0 x z w :
  accounted sc0 w → accounted sc0 (loadChunk x z w).
Proof.
  intros (Hm & Hle & Hb & Hnd & Hk & Hc). rewrite loadChunk_eq.
  destruct (JSSet.has _ _) eqn:E; [done|].
  apply JSSet_has_false in E. unfold consistent in Hc. rewrite <- Hc in E.
  unfold accounted, chunkMeshIds in *. cbn [chunks scene].
  rewrite JSMap_set_absent by done.
  destruct (generateChunk_scene groundPositions (config w) x z (scene w))
    as [-> ->].
  rewrite fmap_app. cbn [fmap list_fmap snd].
  rewrite generateChunk_uniqueId.
  split_and!.
  - by rewrite Hm, app_assoc.
  - lia.
  - intros i [Hi| ->%list_elem_of_singleton]%elem_of_app.
    + specialize (Hb i Hi). lia.
    + lia.
  - apply NoDup_app. split_and!; [done| |apply NoDup_singleton].
    intros i Hi ->%list_elem_of_singleton. specialize (Hb _ Hi). lia.
  - unfold JSMap.keys in *. rewrite fmap_app. apply NoDup_app.
    split_and!; [done| |apply NoDup_singleton].
    intros k' Hk' ->%list_elem_of_singleton. done.
  - unfold consistent. cbn [chunks loadedChunks].
    rewrite <- JSMap_set_absent by done. by rewrite JSMap_keys_set, Hc.
Qed.

Lemma unloadChunk_accounted sc0 w k :
  wellFormedScene sc0 → accounted sc0 w → accounted sc0 (unloadChunk w k).
Proof.
  intros Hwf (Hm & Hle & Hb & Hnd & Hk & Hc).
  destruct (JSMap.get k (chunks w)) as [c|] eqn:Hg.
  - apply JSMap_get_elem_of in Hg as He.
    assert (uniqueId (mesh c) ∈ chunkMeshIds w) as Hc_in.
    { unfold chunkMeshIds. apply list_elem_of_fmap. by exists (k, c). }
    unfold accounted, chunkMeshIds, unloadChunk in *. cbn [chunks scene].
    rewrite Hg. cbn [dispose snd meshes nextUniqueId].
    assert (filter (λ i, i ≠ uniqueId (mesh c))
              ((λ e, uniqueId (mesh e.2)) <$> chunks w)
            = (λ e, uniqueId (mesh e.2)) <$> JSMap.delete k (chunks w)) as Hf.
    { unfold JSMap.delete. apply filter_fmap_equiv. intros e Hin. split.
      - intros Hne Heq. apply Hne. destruct e as [k' c'].
        cbn [fst snd] in *. subst k'.
        assert (JSMap.get k (chunks w) = Some c') as Hg'
          by by apply JSMap_elem_of_get.
        congruence.
      - intros Hne Heq. apply Hne.
        by rewrite (NoDup_fmap_eq (λ e, uniqueId (mesh e.2)) (chunks w)
                      e (k, c)). }
    split_and!.
    + rewrite Hm, filter_app, Hf. f_equal. apply filter_all.
      intros i Hi%Hwf. specialize (Hb _ Hc_in). lia.
    + done.
    + intros i (e & -> & [_ Hin]%JSMap_elem_of_delete)%list_elem_of_fmap.
      apply Hb, list_elem_of_fmap. by exists e.
    + by apply NoDup_fmap_filter.
    + rewrite JSMap_keys_delete. by apply JSSet_NoDup_delete.
    + unfold consistent in *. cbn [chunks loadedChunks].
      by rewrite JSMap_keys_delete, Hc.
  - assert (k ∉ JSMap.keys (chunks w)) as Hk' by by apply JSMap_get_None.
    unfold accounted, chunkMeshIds, unloadChunk in *. cbn [chunks scene].
    rewrite Hg, JSMap_delete_absent by done.
    split_and!; try done.
    unfold consistent in *. cbn [chunks loadedChunks].
    rewrite <- Hc. unfold JSSet.delete. symmetry. apply filter_all.
    by intros k' Hin ->.
Qed.

Lemma updateChunkLoading_accounted sc0 w :
  wellFormedScene sc0 → accounted sc0 w → accounted sc0 (updateChunkLoading w).
Proof.
  intros Hwf Ha. rewrite updateChunkLoading_eq. unfold unloadDistantChunks.
  apply foldl_preserves.
  { intros w' k. by apply unloadChunk_accounted. }
  rewrite loadChunksInRange_fold. apply foldl_preserves; [|done].
  intros w' [x z]. apply loadChunk_accounted.
Qed.

(** X6.  Constructed in a well-formed scene, the system keeps the scene's
    meshes accounted for: after any number of frames they are the meshes
    the scene had at construction, untouched, followed by exactly one
    ground mesh for each stored chunk, in map order.  No ground mesh
    leaks, and no mesh of another component is disposed of. *)
Theorem scene_meshes_accounted sc cfg envs w :
  wellFormedScene sc →
  reaches (newWorld sc cfg envs) w →
  meshes (scene w) = (meshes sc ++ chunkMeshIds w)%list
  ∧ NoDup (chunkMeshIds w)
  ∧ length (chunkMeshIds w) = length (loadedChunks w)
  ∧ ∀ i, i ∈ chunkMeshIds w → i ∉ meshes sc.
Proof.
  intros Hwf Hw.
  assert (accounted sc w) as (Hm & Hle & Hb & Hnd & Hk & Hc).
  { induction Hw as [|w' _ IH|w' p _ IH]; [apply newWorld_accounted| |done].
    by apply updateChunkLoading_accounted. }
  split_and!; try done.
  - unfold chunkMeshIds. rewrite <- Hc. unfold JSMap.keys.
    by rewrite !length_fmap.
  - intros i Hi Hi'%Hwf. specialize (Hb _ Hi). lia.
Qed.

(** X5.  A teleport replaces everything.  If every cell resident in a
    reachable state is further than [renderDistance + 1] from the player's
    cell, the tick unloads them all and the loaded set becomes exactly the
    square around the player, in loading order; the mesh of every chunk
    stored before is disposed of. *)
Theorem teleport_replaces_everything w :
  reachable w →
  (∀ x z, resident w x z →
          chebyshev x z (playerChunk w).1 (playerChunk w).2
            > renderDistance (config w) + 1) →
  let w' := updateChunkLoading w in
  let keys :=
    (λ c, chunkKey c.1 c.2)
      <$> scan (playerChunk w).1 (playerChunk w).2
               (renderDistance (config w)) in
  loadedChunks w' = keys
  ∧ JSMap.keys (chunks w') = keys
  ∧ (∀ x z, resident w' x z ↔
            chebyshev x z (playerChunk w).1 (playerChunk w).2
              ≤ renderDistance (config w))
  ∧ ∀ i, i ∈ chunkMeshIds w → i ∉ meshes (scene w').
Proof.
  intros Hr Hfar. cbv zeta.
  pose proof (reachable_invariant _ _ Hr) as [Hv Hc Hnd Hk [Hin Hids]].
  set (px := (playerChunk w).1) in *. set (pz := (playerChunk w).2) in *.
  set (rd := renderDistance (config w)) in *.
  set (keys := (λ c, chunkKey c.1 c.2) <$> scan px pz rd).
  assert (∀ k, k ∈ loadedChunks w → isDistant (config w) px pz k = true)
    as Hdist.
  { intros k Hin'. destruct (Hk k Hin') as (x & z & ->).
    rewrite isDistant_chunkKey. apply bool_decide_eq_true. by apply Hfar. }
  assert (∀ k, k ∈ keys → isDistant (config w) px pz k = false) as Hnear.
  { intros k ([x z] & -> & Hxz%elem_of_scan)%list_elem_of_fmap.
    cbn [fst snd]. rewrite isDistant_chunkKey. apply bool_decide_eq_false.
    fold rd. lia. }
  assert (∀ k, k ∈ keys → k ∉ loadedChunks w) as Hfresh.
  { intros k Hk1 Hk2. specialize (Hdist _ Hk2). specialize (Hnear _ Hk1).
    congruence. }
  set (w1 := loadChunksInRange px pz w).
  assert (loadedChunks w1 = (loadedChunks w ++ keys)%list) as Hl1.
  { unfold w1. rewrite loadChunksInRange_fold.
    exact (proj1 (load_fresh_cells groundPositions (scan px pz rd) w
                    (NoDup_scan_keys px pz rd) Hfresh)). }
  assert (chunksToUnload px pz w1 = loadedChunks w) as HL.
  { unfold chunksToUnload. rewrite Hl1. unfold w1.
    rewrite loadChunksInRange_config, List.filter_app.
    rewrite List.forallb_filter_id.
    2:{ apply forallb_forall. intros k Hin'%list_elem_of_In. by apply Hdist. }
    replace (List.filter (isDistant (config w) px pz) keys) with (@nil string);
      [by rewrite app_nil_r|].
    symmetry. apply elem_of_nil_inv.
    intros k [Hin' E]%list_elem_of_In%filter_In. apply list_elem_of_In in Hin'.
    rewrite Hnear in E by done. done. }
  assert (loadedChunks (updateChunkLoading w) = keys) as Hl.
  { rewrite updateChunkLoading_eq. fold px pz w1. unfold unloadDistantChunks.
    rewrite (foldl_project loadedChunks unloadChunk
               (λ s k', JSSet.delete k' s)) by done.
    rewrite HL, foldl_delete_filter, Hl1, filter_app.
    rewrite filter_none by (intros k ? Hn; by apply Hn).
    rewrite filter_all; [done|]. intros k Hin'. by apply Hfresh. }
  split_and!.
  - done.
  - rewrite <- Hl. by apply updateChunkLoading_consistent.
  - intros x z. unfold resident. rewrite Hl. unfold keys.
    rewrite list_elem_of_fmap. split.
    + intros ([x' z'] & [-> ->]%chunkKey_inj & H%elem_of_scan). done.
    + intros H. exists (x, z). by rewrite elem_of_scan.
  - intros i (e & -> & He)%list_elem_of_fmap.
    rewrite updateChunkLoading_eq. fold px pz w1. unfold unloadDistantChunks.
    rewrite unload_fold_meshes, HL. intros [_ Hno].
    destruct e as [k c]. apply (Hno k c); [| |done].
    + rewrite <- Hc. unfold JSMap.keys. apply list_elem_of_fmap.
      by exists (k, c).
    + apply loadChunksInRange_get; [done|].
      apply JSMap_elem_of_get; [by rewrite Hc|done].
Qed.

Lemma getChunkAt_is_Some w (x z : R) :
  consistent w →
  is_Some (getChunkAt x z w)
  ↔ resident w (Zfloor (x / chunkSize (config w)))
               (Zfloor (z / chunkSize (config w))).
Proof.
  intros Hc. unfold getChunkAt, resident. cbv zeta. rewrite <- Hc.
  rewrite <- not_eq_None_Some, JSMap_get_None. split.
  - intros H. by apply dec_stable.
  - intros H Hn. done.
Qed.

(** X9.  [getChunkAt] after a tick of a reachable state.  It answers with
    a chunk exactly for the points whose cell is resident: for every point
    whose cell is within [renderDistance] of the player's cell, for no
    point whose cell is further than [renderDistance + 1], and, when the
    render distance is not negative, for the player's own position. *)
Theorem getChunkAt_after_tick w (x z : R) :
  reachable w →
  let w' := updateChunkLoading w in
  let cx := Zfloor (x / chunkSize (config w)) in
  let cz := Zfloor (z / chunkSize (config w)) in
  let d := chebyshev cx cz (playerChunk w).1 (playerChunk w).2 in
  (is_Some (getChunkAt x z w') ↔ resident w' cx cz)
  ∧ (d ≤ renderDistance (config w) → is_Some (getChunkAt x z w'))
  ∧ (d > renderDistance (config w) + 1 → getChunkAt x z w' = None)
  ∧ (0 ≤ renderDistance (config w) →
     is_Some (getChunkAt (v_x (playerPosition w')) (v_z (playerPosition w'))
                         w')).
Proof.
  intros Hr. cbv zeta.
  apply reachable_tick, reachable_invariant in Hr as [_ Hc _ _ _].
  pose proof (getChunkAt_is_Some _ x z Hc) as Hx.
  rewrite updateChunkLoading_config in Hx. split_and!.
  - done.
  - intros Hd. apply Hx, resident_updateChunkLoading. by left.
  - intros Hd. apply eq_None_not_Some. rewrite Hx.
    rewrite resident_updateChunkLoading. lia.
  - intros Hrd. apply getChunkAt_is_Some; [done|].
    rewrite updateChunkLoading_config, updateChunkLoading_playerPosition.
    apply resident_updateChunkLoading. left. unfold playerChunk, chebyshev.
    cbn [fst snd]. lia.
Qed.

(** X10.  In a reachable state with a positive chunk size, the chunk that
    [getChunkAt] answers for a point has its position at the corner of the
    point's cell: the point lies between the position and the position
    plus one chunk size, on both axes.  The chunk is the one generated for
    that cell, so its biome is the biome of its position. *)
Theorem getChunkAt_covers w (x z : R) (c : Chunk) :
  reachable w → (0 < chunkSize (config w))%R →
  getChunkAt x z w = Some c →
  (v_x (position c) <= x < v_x (position c) + chunkSize (config w))%R
  ∧ (v_z (position c) <= z < v_z (position c) + chunkSize (config w))%R
  ∧ v_y (position c) = 0%R
  ∧ biome c = getBiome (v_x (position c)) (v_z (position c)).
Proof.
  intros Hr Hcs Hg. unfold getChunkAt in Hg. cbv zeta in Hg.
  apply JSMap_get_elem_of, (reachable_chunksGenerated _ _ Hr) in Hg.
  destruct Hg as (x' & z' & sc & E & Hgen). cbn [fst snd] in E, Hgen.
  apply chunkKey_inj in E as [<- <-]. subst c.
  destruct (generateChunk_position groundPositions (config w)
              (Zfloor (x / chunkSize (config w)))
              (Zfloor (z / chunkSize (config w))) sc) as [Hp _].
  rewrite generateChunk_biome, Hp. cbn [v_x v_y v_z].
  set (cs := chunkSize (config w)) in *.
  pose proof (Zfloor_bound (x / cs)) as Hbx.
  pose proof (Zfloor_bound (z / cs)) as Hbz.
  assert (x = x / cs * cs)%R as Ex by (field; lra).
  assert (z = z / cs * cs)%R as Ez by (field; lra).
  split_and!; try done; nra.
Qed.

End GridFacts.

(** * The static environments *)

Section EnvironmentFacts.

Variable random : nat → R.

#[local] Open Scope R_scope.

Lemma pushEach_length {A} (f : Z → EnvM A) (l : list Z) (st : Scene * nat) :
  length (pushEach f l st).1 = length l.
Proof.
  revert st. induction l as [|i l IH]; intros st; [done|].
  cbn [pushEach]. unfold ebind at 1. destruct (f i st) as [a st1].
  unfold ebind at 1. specialize (IH st1).
  destruct (pushEach f l st1) as [r st2]. cbn in *. by rewrite IH.
Qed.

Lemma pushEach_Forall {A} (P : A → Prop) (f : Z → EnvM A) (l : list Z)
    (st : Scene * nat) :
  (∀ i st', i ∈ l → P (f i st').1) → Forall P (pushEach f l st).1.
Proof.
  revert st. induction l as [|i l IH]; intros st Hf; [by constructor|].
  cbn [pushEach]. unfold ebind at 1.
  pose proof (Hf i st ltac:(left)) as Hi. destruct (f i st) as [a st1].
  unfold ebind at 1.
  assert (Forall P (pushEach f l st1).1) as Hl.
  { apply IH. intros j st' Hj. apply Hf. by right. }
  destruct (pushEach f l st1) as [r st2]. cbn in *. by constructor.
Qed.

(** A loop whose body hands out [k] ids and returns the mesh with the
    first of them. *)
Lemma pushEach_ids (f : Z → EnvM SceneryMesh) (k : nat) (l : list Z)
    (st : Scene * nat) :
  (∀ i st',
     s_uniqueId (f i st').1 = nextUniqueId st'.1
     ∧ nextUniqueId (f i st').2.1 = (nextUniqueId st'.1 + k)%nat
     ∧ meshes (f i st').2.1
       = (meshes st'.1 ++ seq (nextUniqueId st'.1) k)%list) →
  s_uniqueId <$> (pushEach f l st).1
  = (λ j, (nextUniqueId st.1 + k * j)%nat) <$> seq 0 (length l)
  ∧ nextUniqueId (pushEach f l st).2.1
    = (nextUniqueId st.1 + k * length l)%nat
  ∧ meshes (pushEach f l st).2.1
    = (meshes st.1 ++ seq (nextUniqueId st.1) (k * length l))%list.
Proof.
  intros Hf. revert st. induction l as [|i l IH]; intros st.
  - cbn. rewrite Nat.mul_0_r, Nat.add_0_r. cbn. by rewrite app_nil_r.
  - cbn [pushEach]. unfold ebind.
    destruct (Hf i st) as (Hid & Hn & Hm). destruct (f i st) as [a st1].
    destruct (IH st1) as (IHid & IHn & IHm).
    destruct (pushEach f l st1) as [r st2]. unfold eret.
    cbn [fst snd] in *. cbn [length]. split_and!.
    + rewrite fmap_cons, IHid, Hid, Hn. cbn [seq fmap list_fmap].
      f_equal; [lia|]. rewrite <- fmap_S_seq, <- list_fmap_compose.
      apply list_fmap_ext. intros _ j _. cbn. lia.
    + rewrite IHn, Hn. lia.
    + rewrite IHm, Hm, Hn, <- app_assoc. f_equal.
      replace (k * S (length l))%nat with (k + k * length l)%nat by lia.
      by rewrite seq_app.
Qed.

Lemma createTemplePillar_position (index : Z) (st : Scene * nat) :
  s_position (createTemplePillar index st).1
  = mkVector3 (100 + cos (IZR index / 12 * PI * 2) * 25) 9.5
              (100 + sin (IZR index / 12 * PI * 2) * 25).
Proof. reflexivity. Qed.

Lemma createTempleStatue_position (index : Z) (st : Scene * nat) :
  s_position (createTempleStatue index st).1
  = mkVector3 (100 + cos (IZR index / 6 * PI * 2) * 15) 6
              (100 + sin (IZR index / 6 * PI * 2) * 15).
Proof. reflexivity. Qed.

Lemma ring_distance (a r cx cz : R) :
  (cx + cos a * r - cx) * (cx + cos a * r - cx)
  + (cz + sin a * r - cz) * (cz + sin a * r - cz) = r * r.
Proof.
  pose proof (sin2_cos2 a) as H. unfold Rsqr in H. nra.
Qed.

Lemma createTempleEnvironment_eq (st : Scene * nat) :
  ∃ st1 st2,
    (createTempleEnvironment st).1
    = mkTemple (Some (createMainTemple st).1)
               (pushEach createTemplePillar (seqZ 0 12) st1).1
               (pushEach createTempleStatue (seqZ 0 6) st2).1 [].
Proof.
  unfold createTempleEnvironment, ebind.
  destruct (createMainTemple st) as [base st1].
  exists st1, (pushEach createTemplePillar (seqZ 0 12) st1).2.
  destruct (pushEach createTemplePillar (seqZ 0 12) st1) as [ps st2].
  cbn [fst snd]. by destruct (pushEach createTempleStatue (seqZ 0 6) st2).
Qed.

(** X20.  The temple: twelve pillars stand on the circle of radius 25
    around the vertical axis through [(100, 100)], six statues on the
    circle of radius 15 around it, and the base is on the axis. *)
Theorem temple_rings (st : Scene * nat) :
  let t := (createTempleEnvironment st).1 in
  length (pillars t) = 12%nat
  ∧ Forall (λ m, axisDistance2 100 100 m = 25 * 25
                 ∧ v_y (s_position m) = 9.5) (pillars t)
  ∧ length (statues t) = 6%nat
  ∧ Forall (λ m, axisDistance2 100 100 m = 15 * 15
                 ∧ v_y (s_position m) = 6) (statues t)
  ∧ ∃ base, mainTemple t = Some base
            ∧ s_position base = mkVector3 100 2 100
            ∧ temple_decorations t = [].
Proof.
  cbv zeta. destruct (createTempleEnvironment_eq st) as (st1 & st2 & ->).
  cbn [pillars statues mainTemple temple_decorations]. split_and!.
  - by rewrite pushEach_length.
  - apply pushEach_Forall. intros i st' _. unfold axisDistance2.
    rewrite createTemplePillar_position. cbn [v_x v_y v_z].
    split; [apply ring_distance|done].
  - by rewrite pushEach_length.
  - apply pushEach_Forall. intros i st' _. unfold axisDistance2.
    rewrite createTempleStatue_position. cbn [v_x v_y v_z].
    split; [apply ring_distance|done].
  - by eexists.
Qed.






Lemma createVillageBuilding_ids (index : Z) (st : Scene * nat) :
  s_uniqueId (createVillageBuilding random index st).1 = nextUniqueId st.1
  ∧ nextUniqueId (createVillageBuilding random index st).2.1
    = (nextUniqueId st.1 + 2)%nat
  ∧ meshes (createVillageBuilding random index st).2.1
    = (meshes st.1 ++ seq (nextUniqueId st.1) 2)%list.
Proof.
  unfold createVillageBuilding, ebind, eret, createShape, newSceneryMaterial,
    Math_random. cbn. split_and!; [done|lia|by rewrite <- app_assoc].
Qed.

Lemma createVillageEnvironment_eq (st : Scene * nat) :
  let r := pushEach (createVillageBuilding random) (seqZ 0 15) st in
  let n := nextUniqueId r.2.1 in
  (createVillageEnvironment random st).1
  = mkVillage (r.1 ++ [(createVillageCenter r.2).1])%list []
              [(createVillageWell (createVillageCenter r.2).2).1]
  ∧ s_uniqueId (createVillageCenter r.2).1 = n
  ∧ s_uniqueId (createVillageWell (createVillageCenter r.2).2).1 = S n
  ∧ meshes (createVillageEnvironment random st).2.1
    = (meshes r.2.1 ++ [n; S n])%list.
Proof.
  cbv zeta. unfold createVillageEnvironment, ebind.
  destruct (pushEach (createVillageBuilding random) (seqZ 0 15) st) as [bs st1].
  unfold createVillageCenter, createVillageWell, ebind, eret, createShape,
    newSceneryMaterial. cbn. split_and!; try done.
  by rewrite <- app_assoc.
Qed.

(** X22.  [createVillageEnvironment] puts 32 meshes into the scene and
    keeps 17 of them in the village object: the fifteen buildings, the
    centre and the well.  The fifteen roofs, each created right after its
    building, are in the scene but in no list of the village. *)
Theorem village_roofs_are_untracked (st : Scene * nat) :
  let r := createVillageEnvironment random st in
  let n := nextUniqueId st.1 in
  let tracked :=
    s_uniqueId <$> (buildings r.1 ++ npcs r.1 ++ props r.1)%list in
  meshes r.2.1 = (meshes st.1 ++ seq n 32)%list
  ∧ s_uniqueId <$> buildings r.1
    = (((λ j, (n + 2 * j)%nat) <$> seq 0 15) ++ [(n + 30)%nat])%list
  ∧ npcs r.1 = []
  ∧ s_uniqueId <$> props r.1 = [(n + 31)%nat]
  ∧ length tracked = 17%nat
  ∧ ∀ j, (j < 15)%nat →
         (n + 2 * j + 1)%nat ∈ meshes r.2.1
         ∧ (n + 2 * j + 1)%nat ∉ tracked.
Proof.
  cbv zeta. destruct (createVillageEnvironment_eq st) as (-> & Hc & Hw & ->).
  destruct (pushEach_ids (createVillageBuilding random) 2 (seqZ 0 15) st
              createVillageBuilding_ids) as (Hids & Hn & Hm).
  change (length (seqZ 0 15)) with 15%nat in *.
  change (2 * 15)%nat with 30%nat in *.
  rewrite Hn in Hc, Hw. rewrite Hm, Hn.
  cbn [buildings npcs props]. rewrite !fmap_app, Hids.
  cbn [fmap list_fmap app]. rewrite Hc, Hw.
  set (n := nextUniqueId st.1).
  assert ((meshes st.1 ++ seq n 30) ++ [(n + 30)%nat; S (n + 30)]
          = meshes st.1 ++ seq n 32)%list as Hall.
  { rewrite <- app_assoc. f_equal. symmetry. apply (seq_app 30 2). }
  rewrite Hall. split_and!.
  - reflexivity.
  - reflexivity.
  - reflexivity.
  - f_equal. lia.
  - by rewrite !length_app, length_fmap, length_seq.
  - intros j Hj. split.
    + apply elem_of_app. right. apply elem_of_seq. lia.
    + rewrite !elem_of_app, list_elem_of_fmap, !list_elem_of_singleton.
      intros [[(i & E & _)|E]|E]; lia.
Qed.

End EnvironmentFacts.

(** * Further scenarios *)

Section MoreScenarios.

Lemma walk_reaches : reaches cornersOnly walkStart walkEnd.
Proof. apply reaches_tick, reaches_move, reaches_tick, reaches_refl. Qed.

Lemma walkMoved_valid : validConfig (config walkMoved).
Proof. rewrite walkMoved_config. apply scenarioConfig_valid. Qed.

Lemma walkLoaded_config : config walkLoaded = scenarioConfig 25 true true.
Proof. unfold walkLoaded. by rewrite updateChunkLoading_config. Qed.

Lemma walkLoaded_reachable : reachable cornersOnly walkLoaded.
Proof. apply reachable_tick, reachable_new, scenarioConfig_valid. Qed.

Lemma walkLoaded_only_near x z :
  resident walkLoaded x z → chebyshev x z 0 0 ≤ 1.
Proof.
  intros [H|[H _]]%resident_updateChunkLoading.
  - by rewrite walkStart_playerChunk in H.
  - by inversion H.
Qed.

Lemma walkTeleported_playerChunk : playerChunk walkTeleported = (10, 0).
Proof.
  apply (playerChunk_at (mkVector3 1000 0 0) (scenarioConfig 25 true true));
    [done|apply walkLoaded_config| |]; simpl; lra.
Qed.

Lemma emptyScene_wellFormed : wellFormedScene emptyScene.
Proof. intros i Hi. by inversion Hi. Qed.

Lemma walkLoaded_origin_chunk :
  ∃ c, getChunkAt 0 0 walkLoaded = Some c.
Proof.
  apply (getChunkAt_is_Some walkLoaded 0 0).
  - by destruct (reachable_invariant _ _ walkLoaded_reachable).
  - rewrite walkLoaded_config.
    replace (Zfloor (0 / chunkSize (scenarioConfig 25 true true))) with 0.
    + by apply walkLoaded_resident.
    + symmetry. apply Zfloor_eq. simpl. lra.
Qed.

Lemma loaded_count_bounds_witness :
  reachable cornersOnly walkMoved
  ∧ 0 ≤ renderDistance (config walkMoved)
  ∧ (9 ≤ length (loadedChunks walkEnd) ≤ 25)%nat.
Proof.
  assert (0 ≤ renderDistance (config walkMoved)) as Hrd.
  { by rewrite walkMoved_config. }
  split; [exact walkMoved_reachable|]. split; [exact Hrd|].
  destruct (loaded_count_bounds cornersOnly walkMoved walkMoved_reachable Hrd)
    as (Hlo & Hhi & _).
  rewrite walkMoved_config in Hlo, Hhi. split; [exact Hlo|exact Hhi].
Defined.

Lemma tick_after_move_within_cell_witness :
  validConfig (config walkStart)
  ∧ cellOf (config walkStart) (mkVector3 50 0 30) = playerChunk walkStart
  ∧ updateChunkLoading cornersOnly
      (updatePlayerPosition (mkVector3 50 0 30) walkLoaded)
    = updatePlayerPosition (mkVector3 50 0 30) walkLoaded.
Proof.
  assert (cellOf (config walkStart) (mkVector3 50 0 30)
          = playerChunk walkStart) as Hcell.
  { rewrite walkStart_playerChunk. unfold cellOf.
    f_equal; apply Zfloor_eq; simpl; lra. }
  split; [apply scenarioConfig_valid|]. split; [exact Hcell|].
  exact (tick_after_move_within_cell cornersOnly walkStart
           (mkVector3 50 0 30) (scenarioConfig_valid 25 true true) Hcell).
Defined.

Lemma no_thrash_between_neighbours_witness :
  validConfig (config walkStart)
  ∧ chebyshev (cellOf (config walkStart) Vector3_Zero).1
              (cellOf (config walkStart) Vector3_Zero).2
              (cellOf (config walkStart) (mkVector3 100 0 0)).1
              (cellOf (config walkStart) (mkVector3 100 0 0)).2 ≤ 1
  ∧ updateChunkLoading cornersOnly
      (updatePlayerPosition Vector3_Zero
         (updateChunkLoading cornersOnly
            (updatePlayerPosition (mkVector3 100 0 0)
               (updateChunkLoading cornersOnly
                  (updatePlayerPosition Vector3_Zero walkStart)))))
    = updatePlayerPosition Vector3_Zero
        (updateChunkLoading cornersOnly
           (updatePlayerPosition (mkVector3 100 0 0)
              (updateChunkLoading cornersOnly
                 (updatePlayerPosition Vector3_Zero walkStart)))).
Proof.
  assert (chebyshev (cellOf (config walkStart) Vector3_Zero).1
            (cellOf (config walkStart) Vector3_Zero).2
            (cellOf (config walkStart) (mkVector3 100 0 0)).1
            (cellOf (config walkStart) (mkVector3 100 0 0)).2 ≤ 1) as Hadj.
  { unfold cellOf. simpl.
    rewrite (Zfloor_eq 0 (0 / 100)), (Zfloor_eq 1 (100 / 100));
      [done|simpl; lra..]. }
  split; [apply scenarioConfig_valid|]. split; [exact Hadj|].
  exact (no_thrash_between_neighbours cornersOnly walkStart Vector3_Zero
           (mkVector3 100 0 0) (scenarioConfig_valid 25 true true) Hadj).
Defined.

Lemma walkTeleported_far x z :
  resident walkTeleported x z →
  chebyshev x z (playerChunk walkTeleported).1 (playerChunk walkTeleported).2
  > renderDistance (config walkTeleported) + 1.
Proof.
  intros H%walkLoaded_only_near. rewrite walkTeleported_playerChunk.
  unfold walkTeleported. cbn [updatePlayerPosition config].
  rewrite walkLoaded_config. unfold chebyshev in *. cbn. lia.
Qed.

Lemma teleport_replaces_everything_witness :
  reachable cornersOnly walkTeleported
  ∧ (∀ x z, resident walkTeleported x z →
            chebyshev x z (playerChunk walkTeleported).1
                      (playerChunk walkTeleported).2
            > renderDistance (config walkTeleported) + 1)
  ∧ ∀ x z, resident (updateChunkLoading cornersOnly walkTeleported) x z
           ↔ chebyshev x z (playerChunk walkTeleported).1
                       (playerChunk walkTeleported).2
             ≤ renderDistance (config walkTeleported).
Proof.
  assert (reachable cornersOnly walkTeleported) as Hr.
  { apply reachable_move, walkLoaded_reachable. }
  split; [exact Hr|]. split; [exact walkTeleported_far|].
  exact (proj1 (proj2 (proj2 (teleport_replaces_everything cornersOnly
                                walkTeleported Hr walkTeleported_far)))).
Defined.

Lemma scene_meshes_accounted_witness :
  wellFormedScene emptyScene
  ∧ reaches cornersOnly walkStart walkEnd
  ∧ meshes (scene walkEnd) = (meshes emptyScene ++ chunkMeshIds walkEnd)%list.
Proof.
  split; [exact emptyScene_wellFormed|]. split; [exact walk_reaches|].
  exact (proj1 (scene_meshes_accounted cornersOnly emptyScene
                  (scenarioConfig 25 true true) [] walkEnd
                  emptyScene_wellFormed walk_reaches)).
Defined.

Lemma scene_resources_never_released_witness :
  reaches cornersOnly walkStart walkEnd
  ∧ sceneGrows (scene walkStart) (scene walkEnd).
Proof.
  split; [exact walk_reaches|].
  exact (proj1 (scene_resources_never_released cornersOnly walkStart walkEnd
                  0 0 walk_reaches)).
Defined.

Lemma getChunkAt_after_tick_witness :
  reachable cornersOnly walkMoved
  ∧ is_Some (getChunkAt (v_x (playerPosition walkEnd))
                        (v_z (playerPosition walkEnd)) walkEnd).
Proof.
  split; [exact walkMoved_reachable|].
  destruct (getChunkAt_after_tick cornersOnly walkMoved 0 0
              walkMoved_reachable) as (_ & _ & _ & H).
  apply H. by rewrite walkMoved_config.
Defined.

Lemma getChunkAt_covers_witness :
  reachable cornersOnly walkLoaded
  ∧ (0 < chunkSize (config walkLoaded))%R
  ∧ ∃ c, getChunkAt 0 0 walkLoaded = Some c
         ∧ (v_x (position c) <= 0
            < v_x (position c) + chunkSize (config walkLoaded))%R.
Proof.
  assert (0 < chunkSize (config walkLoaded))%R as Hcs.
  { rewrite walkLoaded_config. simpl. lra. }
  split; [exact walkLoaded_reachable|]. split; [exact Hcs|].
  destruct walkLoaded_origin_chunk as [c Hg]. exists c. split; [exact Hg|].
  exact (proj1 (getChunkAt_covers cornersOnly walkLoaded 0 0 c
                  walkLoaded_reachable Hcs Hg)).
Defined.

Lemma loadChunk_allocations_witness :
  chunkKey 0 0 ∉ loadedChunks walkStart
  ∧ ∃ c, JSMap.get (chunkKey 0 0)
           (chunks (loadChunk cornersOnly 0 0 walkStart)) = Some c
         ∧ mesh_name (mesh c) = "chunk_0,0"%string.
Proof.
  assert (chunkKey 0 0 ∉ loadedChunks walkStart) as Hn
    by apply not_elem_of_nil.
  split; [exact Hn|].
  destruct (loadChunk_allocations cornersOnly 0 0 walkStart Hn)
    as (c & Hg & Hname & _).
  exists c. split; [exact Hg|exact Hname].
Defined.

Lemma getHeight_period_witness :
  (0 <= 0)%R ∧ (0 <= 0)%R
  ∧ (getHeight (0 + 100) 0 emptyScene).1 = (getHeight 0 0 emptyScene).1.
Proof.
  assert (0 <= 0)%R as H0 by lra.
  split; [exact H0|]. split; [exact H0|].
  exact (proj1 (getHeight_period 0 0 emptyScene emptyScene H0 H0)).
Defined.

Lemma village_only_at_origin_witness :
  (100 <= chunkSize (scenarioConfig 25 true true))%R
  ∧ biome (generateChunk cornersOnly (scenarioConfig 25 true true) 0 0
             emptyScene).1 = village.
Proof.
  assert (100 <= chunkSize (scenarioConfig 25 true true))%R as H
    by (simpl; lra).
  split; [exact H|].
  apply (village_only_at_origin cornersOnly (scenarioConfig 25 true true)
           0 0 emptyScene H). by split.
Defined.

Lemma loadChunk_idempotent_witness :
  consistent walkLoaded
  ∧ ¬ resident walkLoaded 5 5
  ∧ loadChunk cornersOnly 5 5 (loadChunk cornersOnly 5 5 walkLoaded)
    = loadChunk cornersOnly 5 5 walkLoaded
  ∧ resident (loadChunk cornersOnly 5 5 walkLoaded) 5 5
  ∧ ∃ c, JSMap.get (chunkKey 0 0) (chunks walkLoaded) = Some c
         ∧ JSMap.get (chunkKey 0 0)
             (chunks (loadChunk cornersOnly 5 5 walkLoaded)) = Some c.
Proof.
  assert (consistent walkLoaded) as Hc.
  { by destruct (reachable_invariant _ _ walkLoaded_reachable). }
  split; [exact Hc|].
  split; [intros H%walkLoaded_only_near; vm_compute in H; by apply H|].
  destruct (loadChunk_idempotent cornersOnly 5 5 walkLoaded)
    as (Hi & Hr & Hk).
  split; [exact Hi|]. split; [exact Hr|].
  destruct (JSMap.get (chunkKey 0 0) (chunks walkLoaded)) as [c|] eqn:Hg.
  - exists c. split; [reflexivity|].
    exact (proj2 (Hk Hc) (chunkKey 0 0) c Hg).
  - exfalso. apply JSMap_get_None in Hg. rewrite Hc in Hg.
    apply Hg. by apply (walkLoaded_resident 0 0).
Defined.

Lemma negative_renderDistance_witness :
  validConfig idleConfig
  ∧ renderDistance idleConfig < -1
  ∧ loadedChunks idleWorld = []
  ∧ getChunkAt 250 0 idleWorld = None
  ∧ loadedChunks idleStocked = ["0,0"]
  ∧ loadedChunks (updateChunkLoading cornersOnly idleStocked) = [].
Proof.
  assert (validConfig idleConfig) as Hv.
  { unfold validConfig. simpl. lra. }
  assert (renderDistance idleConfig < 0) as Hrd by done.
  assert (renderDistance idleConfig < -1) as Hrd' by done.
  split; [exact Hv|]. split; [exact Hrd'|].
  destruct (negative_renderDistance cornersOnly emptyScene idleConfig []
              Hv Hrd) as (Hnever & _ & Hall).
  assert (reaches cornersOnly (newWorld emptyScene idleConfig []) idleWorld)
    as Hreach.
  { apply reaches_tick, reaches_move, reaches_tick, reaches_refl. }
  destruct (Hnever idleWorld Hreach) as (Hl & _ & _ & _ & Hg).
  split; [exact Hl|]. split; [exact (Hg 250%R 0%R)|].
  split; [reflexivity|].
  refine (proj1 (Hall Hrd' idleStocked _ _)).
  - apply loadChunk_invariant, newWorld_invariant, Hv.
  - reflexivity.
Defined.

Lemma game_config_exceeds_maxChunks_witness :
  reaches cornersOnly gameWorld gameWorld
  ∧ (25 < length (chunks (updateChunkLoading cornersOnly gameWorld)))%nat.
Proof.
  split; [apply reaches_refl|].
  exact (proj2 (game_config_exceeds_maxChunks cornersOnly emptyScene []
                  gameWorld (reaches_refl _ _))).
Defined.

Lemma frames_keep_config_and_environments_witness :
  reaches cornersOnly walkStart walkEnd
  ∧ config walkEnd = config walkStart.
Proof.
  split; [exact walk_reaches|].
  exact (proj1 (frames_keep_config_and_environments cornersOnly walkStart
                  walkEnd "village" walk_reaches)).
Defined.


End MoreScenarios.
